(** * Gradient-boosted decision trees: a shallow embedding of [gbdt_numba.py]

    The numeric type of the source is the IEEE double; the embedding works in
    exact rational arithmetic ([Q]), so every statement below is about the
    algorithm, not about rounding.  An operation that has no rational value
    (a division by zero, the mean of an empty vector) and every Python
    exception is an [Err] of the error monad [result]. *)

From Stdlib Require Import String Bool List Sorted ZArith QArith Lia Lqa.
Import ListNotations.
Open Scope Q_scope.

(** ** Errors and the error monad *)

(** The Python exceptions the code can raise, and [OutOfFuel]: the bound on
    the recursion of [Tree.construct_tree_fuel], which no run reaches
    ([construct_tree_fuel_enough]). *)
Inductive error : Type :=
| ZeroDivisionError
| IndexError
| TypeError
| AttributeError
| ValueError
| OutOfFuel.

Inductive result (A : Type) : Type :=
| Ok (a : A)
| Err (e : error).

Arguments Ok {A} a.
Arguments Err {A} e.

Definition bind {A B : Type} (r : result A) (k : A -> result B) : result B :=
  match r with
  | Ok a => k a
  | Err e => Err e
  end.

Notation "x <- c ;; k" := (bind c (fun x => k))
  (at level 61, c at next level, right associativity).
Notation "' pat <- c ;; k" := (bind c (fun x => match x with pat => k end))
  (at level 61, pat pattern, c at next level, right associativity).

(** [for i in idx: s = body(i, s)], stopping at the first exception. *)
Fixpoint for_loop {S : Type} (idx : list nat) (body : nat -> S -> result S)
    (s : S) : result S :=
  match idx with
  | [] => Ok s
  | i :: rest => s' <- body i s ;; for_loop rest body s'
  end.

(** Python's [range(a, b)]. *)
Definition range (a b : nat) : list nat := seq a (b - a).

(** [l[i]] for [0 <= i]; out of range raises [IndexError]. *)
Definition getitem {A : Type} (l : list A) (i : nat) : result A :=
  match nth_error l i with
  | Some x => Ok x
  | None => Err IndexError
  end.

Fixpoint mapM {A B : Type} (f : A -> result B) (l : list A) : result (list B) :=
  match l with
  | [] => Ok []
  | x :: l' => y <- f x ;; ys <- mapM f l' ;; Ok (y :: ys)
  end.

(** ** Numbers *)

(** [a < b] as the source's comparisons compute it. *)
Definition Qltb (a b : Q) : bool :=
  match a ?= b with
  | Lt => true
  | _ => false
  end.

(** [a / b]; a zero divisor has no rational value. *)
Definition div (a b : Q) : result Q :=
  if Qeq_bool b 0 then Err ZeroDivisionError else Ok (a / b).

Definition square (x : Q) : Q := x * x.

(** [np.sum]. *)
Fixpoint sum (l : list Q) : Q :=
  match l with
  | [] => 0
  | x :: l' => x + sum l'
  end.

(** [np.unique]: the sorted distinct values of a vector. *)
Fixpoint insert_unique (x : Q) (l : list Q) : list Q :=
  match l with
  | [] => [x]
  | y :: l' =>
      match x ?= y with
      | Lt => x :: l
      | Eq => l
      | Gt => y :: insert_unique x l'
      end
  end.

Definition unique (l : list Q) : list Q := fold_right insert_unique [] l.

(** ** Split evaluator *)

Definition leaf_score (g h : list Q) (reg_lambda : Q) : result Q :=
  div (- sum g) (sum h + reg_lambda).

Definition leaf_loss (g h : list Q) (reg_lambda : Q) : result Q :=
  div ((-1 # 2) * square (sum g)) (sum h + reg_lambda).

(** The four accumulators of [calculate_gain]:
    [(left_g, left_h, right_g, right_h)]. *)
Definition gain_body (feature g h : list Q) (threshold : Q) (i : nat)
    (acc : Q * Q * Q * Q) : result (Q * Q * Q * Q) :=
  let '(left_g, left_h, right_g, right_h) := acc in
  fi <- getitem feature i ;;
  if Qltb fi threshold then
    gi <- getitem g i ;;
    hi <- getitem h i ;;
    Ok (left_g + gi, left_h + hi, right_g, right_h)
  else
    gi <- getitem g i ;;
    hi <- getitem h i ;;
    Ok (left_g, left_h, right_g + gi, right_h + hi).

Definition calculate_gain (original_loss : Q) (feature g h : list Q)
    (threshold reg_lambda : Q) : result Q :=
  '(left_g, left_h, right_g, right_h) <-
     for_loop (range 0 (length feature)) (gain_body feature g h threshold)
       (0, 0, 0, 0) ;;
  left_loss <- div ((-1 # 2) * square left_g) (left_h + reg_lambda) ;;
  right_loss <- div ((-1 # 2) * square right_g) (right_h + reg_lambda) ;;
  Ok (original_loss - left_loss - right_loss).

(** ** Threshold search *)

Definition threshold_body (loss : Q) (g h train unq : list Q) (reg_lambda : Q)
    (i : nat) (st : option Q * Q) : result (option Q * Q) :=
  let '(threshold, best_gain) := st in
  lo <- getitem unq (i - 1) ;;
  hi <- getitem unq i ;;
  let this_threshold := (lo + hi) / 2 in
  this_gain <- calculate_gain loss train g h this_threshold reg_lambda ;;
  if Qltb best_gain this_gain
  then Ok (Some this_threshold, this_gain)
  else Ok (threshold, best_gain).

Definition find_threshold (g h train : list Q) (reg_lambda : Q)
    : result (option Q * Q) :=
  loss <- leaf_loss g h reg_lambda ;;
  let unq := unique train in
  for_loop (range 1 (length unq))
    (threshold_body loss g h train unq reg_lambda) (None, 0).

(** ** Sample matrices *)

(** A two-dimensional array of shape [(length rows, ncols)]. *)
Record matrix : Type := Matrix { ncols : nat; rows : list (list Q) }.

Definition wf_matrix (m : matrix) : Prop :=
  Forall (fun r => length r = ncols m) (rows m).

(** [len(train)]. *)
Definition nrows (m : matrix) : nat := length (rows m).

(** [train[:, j]], also row [j] of [train.T]. *)
Definition column (m : matrix) (j : nat) : list Q :=
  map (fun r => nth j r 0) (rows m).

(** ** Best-split search *)

Definition split_body (train : matrix) (g h : list Q) (reg_lambda : Q)
    (i : nat) (st : nat * option Q * Q) : result (nat * option Q * Q) :=
  let '(feature, threshold, best_gain) := st in
  '(this_threshold, this_gain) <-
     find_threshold g h (column train i) reg_lambda ;;
  if Qltb best_gain this_gain
  then Ok (i, this_threshold, this_gain)
  else Ok (feature, threshold, best_gain).

Definition find_best_split (train : matrix) (g h : list Q) (reg_lambda : Q)
    : result (nat * option Q * Q) :=
  for_loop (range 0 (ncols train)) (split_body train g h reg_lambda)
    (0%nat, None, 0).

(** ** Vectors *)

(** [l[index]] for a boolean mask [index]; the mask must have the length of
    [l]. *)
Fixpoint compress {A : Type} (l : list A) (index : list bool) : list A :=
  match l, index with
  | x :: l', b :: index' =>
      if b then x :: compress l' index' else compress l' index'
  | _, _ => []
  end.

Definition mask_select {A : Type} (l : list A) (index : list bool)
    : result (list A) :=
  if Nat.eqb (length index) (length l) then Ok (compress l index)
  else Err IndexError.

(** [~index]. *)
Definition invert (index : list bool) : list bool := map negb index.

(** Element-wise [f a b] of two vectors under numpy's broadcasting rule. *)
Definition broadcast (f : Q -> Q -> Q) (a b : list Q) : result (list Q) :=
  if Nat.eqb (length a) (length b) then
    Ok (map (fun p => f (fst p) (snd p)) (combine a b))
  else
    match a, b with
    | _, [y] => Ok (map (fun x => f x y) a)
    | [x], _ => Ok (map (fun y => f x y) b)
    | _, _ => Err ValueError
    end.

(** [score += delta]: in place, so [delta] must have the shape of [score]. *)
Definition iadd (score delta : list Q) : result (list Q) :=
  if Nat.eqb (length score) (length delta) then
    Ok (map (fun p => fst p + snd p) (combine score delta))
  else Err ValueError.

(** [c * v]. *)
Definition scale (c : Q) (v : list Q) : list Q := map (Qmult c) v.

(** [np.ones(n) * c]. *)
Definition ones_times (n : nat) (c : Q) : list Q :=
  map (fun one => one * c) (repeat 1 n).

(** [target.mean()]; the mean of an empty vector has no rational value. *)
Definition mean (target : list Q) : result Q :=
  div (sum target) (inject_Z (Z.of_nat (length target))).

(** ** Loss functions *)

Module Loss.

(** The capability set of the abstract class [loss]. *)
Record t : Type := Build {
  link : list Q -> result (list Q);
  g : list Q -> list Q -> result (list Q);
  h : list Q -> list Q -> result (list Q)
}.

Definition mse : t := {|
  link := fun score => Ok score;
  g := fun true score => broadcast Qminus score true;
  h := fun true score => Ok (map (fun _ => 1) score)
|}.

Section Logistic.
(** [np.exp] is not a rational function: the logistic loss is embedded
    over any function standing for it. *)
Variable exp : Q -> Q.


End Logistic.

End Loss.

(** ** Trees *)

Inductive TreeNode : Type :=
| Leaf (score : Q)
| Internal (split_feature : nat) (split_threshold : Q)
    (left_child right_child : TreeNode).

Definition is_leaf (n : TreeNode) : bool :=
  match n with
  | Leaf _ => true
  | Internal _ _ _ _ => false
  end.

(** The number of edges on the longest path from the root to a leaf. *)
Fixpoint depth (n : TreeNode) : nat :=
  match n with
  | Leaf _ => 0
  | Internal _ _ l r => S (Nat.max (depth l) (depth r))
  end.

Module Tree.

Record t : Type := Build {
  max_depth : Z;
  min_sample_split : Z;
  reg_lambda : Q;
  gamma : Q;
  estimator : option TreeNode
}.

(** [train[:, feature]]: the axis has [ncols train] entries. *)
Definition get_column (train : matrix) (feature : nat) : result (list Q) :=
  if Nat.ltb feature (ncols train) then Ok (column train feature)
  else Err IndexError.

(** The right operand of [<]: comparing numbers with [None] raises
    [TypeError]. *)
Definition as_number (threshold : option Q) : result Q :=
  match threshold with
  | Some t => Ok t
  | None => Err TypeError
  end.

(** [col < threshold], element-wise. *)
Definition less_than (col : list Q) (threshold : Q) : list bool :=
  map (fun x => Qltb x threshold) col.

(** [train[index]] keeps the second axis. *)
Definition select_rows (train : matrix) (index : list bool) : matrix :=
  Matrix (ncols train) (compress (rows train) index).

Definition make_leaf (self : t) (g h : list Q) : result TreeNode :=
  score <- leaf_score g h (reg_lambda self) ;; Ok (Leaf score).

(** [construct_tree], with the recursion bounded by [fuel]. *)
Fixpoint construct_tree_fuel (fuel : nat) (self : t) (train : matrix)
    (g h : list Q) (max_depth : Z) : result TreeNode :=
  match fuel with
  | O => Err OutOfFuel
  | S fuel' =>
      if (max_depth =? 0)%Z
         || (Z.of_nat (nrows train) <? min_sample_split self)%Z
      then make_leaf self g h
      else
        '(feature, threshold, gain) <-
           find_best_split train g h (reg_lambda self) ;;
        if Qle_bool gain (gamma self) then make_leaf self g h
        else
          col <- get_column train feature ;;
          split_threshold <- as_number threshold ;;
          let index := less_than col split_threshold in
          g_left <- mask_select g index ;;
          h_left <- mask_select h index ;;
          left_child <-
            construct_tree_fuel fuel' self (select_rows train index)
              g_left h_left (max_depth - 1) ;;
          g_right <- mask_select g (invert index) ;;
          h_right <- mask_select h (invert index) ;;
          right_child <-
            construct_tree_fuel fuel' self
              (select_rows train (invert index))
              g_right h_right (max_depth - 1) ;;
          Ok (Internal feature split_threshold left_child right_child)
  end.

(** Every recursive call receives fewer samples than its caller
    ([construct_tree_fuel_enough]), so one unit of fuel per sample, and one
    for the call itself, is never used up. *)
Definition construct_tree (self : t) (train : matrix) (g h : list Q)
    (max_depth : Z) : result TreeNode :=
  construct_tree_fuel (S (nrows train)) self train g h max_depth.

Definition fit (self : t) (train : matrix) (g h : list Q) : result t :=
  root <- construct_tree self train g h (max_depth self) ;;
  Ok (Build (max_depth self) (min_sample_split self) (reg_lambda self)
        (gamma self) (Some root)).

Fixpoint predict_single (treenode : TreeNode) (test : list Q) : result Q :=
  match treenode with
  | Leaf score => Ok score
  | Internal split_feature split_threshold left_child right_child =>
      x <- getitem test split_feature ;;
      if Qltb x split_threshold
      then predict_single left_child test
      else predict_single right_child test
  end.

(** [self.estimator] exists once [fit] has run. *)
Definition get_estimator (self : t) : result TreeNode :=
  match estimator self with
  | Some root => Ok root
  | None => Err AttributeError
  end.

Definition predict (self : t) (test : matrix) : result (list Q) :=
  mapM (fun row => root <- get_estimator self ;; predict_single root row)
    (rows test).

End Tree.

(** ** The ensemble *)

Module GBDT.

(** The [loss] argument: a name, or an instance of a [loss] class. *)
Inductive loss_arg : Type :=
| LossName (name : string)
| LossObj (l : Loss.t).

Record t : Type := Build {
  loss : loss_arg;
  max_depth : Z;
  min_sample_split : Z;
  reg_lambda : Q;
  gamma : Q;
  learning_rate : Q;
  n_estimators : Z;
  estimators : option (list Tree.t);
  score_start : option Q
}.

(** [GBDT(...)] with the defaults of [__init__]. *)
Definition init (loss : loss_arg) : t :=
  Build loss 3 10 1 0 (1 # 10) 100 None None.

Definition set_loss (self : t) (l : loss_arg) : t :=
  Build l (max_depth self) (min_sample_split self) (reg_lambda self)
    (gamma self) (learning_rate self) (n_estimators self)
    (estimators self) (score_start self).

Definition set_estimators (self : t) (es : list Tree.t) : t :=
  Build (loss self) (max_depth self) (min_sample_split self)
    (reg_lambda self) (gamma self) (learning_rate self) (n_estimators self)
    (Some es) (score_start self).

Definition set_score_start (self : t) (m : Q) : t :=
  Build (loss self) (max_depth self) (min_sample_split self)
    (reg_lambda self) (gamma self) (learning_rate self) (n_estimators self)
    (estimators self) (Some m).

(** [self.loss == 'mse']. *)
Definition is_mse (l : loss_arg) : bool :=
  match l with
  | LossName name => String.eqb name "mse"
  | LossObj _ => false
  end.

(** Looking up [link], [g] or [h] on [self.loss]: a [str] has none. *)
Definition loss_methods (self : t) : result Loss.t :=
  match loss self with
  | LossObj l => Ok l
  | LossName _ => Err AttributeError
  end.

Definition get_estimators (self : t) : result (list Tree.t) :=
  match estimators self with
  | Some es => Ok es
  | None => Err AttributeError
  end.

Definition get_score_start (self : t) : result Q :=
  match score_start self with
  | Some m => Ok m
  | None => Err AttributeError
  end.

(** One boosting round of [fit]. *)
Definition fit_round (train : matrix) (target : list Q) (i : nat)
    (st : t * list Q) : result (t * list Q) :=
  let '(self, score) := st in
  let estimator :=
    Tree.Build (max_depth self) (min_sample_split self) (reg_lambda self)
      (gamma self) None in
  l <- loss_methods self ;;
  gv <- Loss.g l target score ;;
  hv <- Loss.h l target score ;;
  estimator <- Tree.fit estimator train gv hv ;;
  es <- get_estimators self ;;
  let self := set_estimators self (es ++ [estimator]) in
  p <- Tree.predict estimator train ;;
  score <- iadd score (scale (learning_rate self) p) ;;
  Ok (self, score).

Definition fit (self : t) (train : matrix) (target : list Q) : result t :=
  let self := set_estimators self [] in
  let self :=
    if is_mse (loss self) then set_loss self (LossObj Loss.mse) else self in
  m <- mean target ;;
  let self := set_score_start self m in
  let score := ones_times (nrows train) m in
  '(self, _) <-
     for_loop (range 0 (Z.to_nat (n_estimators self)))
       (fit_round train target) (self, score) ;;
  Ok self.

Definition predict_round (self : t) (test : matrix) (i : nat)
    (score : list Q) : result (list Q) :=
  es <- get_estimators self ;;
  e <- getitem es i ;;
  p <- Tree.predict e test ;;
  iadd score (scale (learning_rate self) p).

Definition predict (self : t) (test : matrix) : result (list Q) :=
  m <- get_score_start self ;;
  let score := ones_times (nrows test) m in
  score <-
    for_loop (range 0 (Z.to_nat (n_estimators self)))
      (predict_round self test) score ;;
  l <- loss_methods self ;;
  Loss.link l score.

End GBDT.

(** * Specification vocabulary *)

(** The midpoints of consecutive entries of a vector. *)
Fixpoint midpoints (v : list Q) : list Q :=
  match v with
  | [] => []
  | a :: v' =>
      match v' with
      | [] => []
      | b :: _ => (a + b) / 2 :: midpoints v'
      end
  end.

(** The candidate thresholds of a feature column. *)
Definition candidates (train : list Q) : list Q := midpoints (unique train).

(** The running best of a scan over candidate thresholds, taken in order, that
    replaces the best so far only by a strictly greater gain. *)
Fixpoint scan (gain : Q -> result Q) (cands : list Q) (st : option Q * Q)
    : result (option Q * Q) :=
  match cands with
  | [] => Ok st
  | c :: rest =>
      this_gain <- gain c ;;
      scan gain rest (if Qltb (snd st) this_gain then (Some c, this_gain) else st)
  end.

(** All hessians are non-negative. *)
Definition nonneg (h : list Q) : Prop := Forall (fun x => 0 <= x) h.

(** The partition of the samples at an internal node: both groups are
    non-empty, the threshold is the midpoint of two distinct observed values of
    the split feature, some sample lies strictly below it and some at or above
    it; and so on down the tree, each child being built on its group. *)
Fixpoint nondegenerate (train : matrix) (node : TreeNode) : Prop :=
  match node with
  | Leaf _ => True
  | Internal feature threshold left_child right_child =>
      let col := column train feature in
      let index := Tree.less_than col threshold in
      (exists a b,
         In a col /\ In b col /\ a < b /\ threshold = (a + b) / 2) /\
      (exists x, In x col /\ x < threshold) /\
      (exists y, In y col /\ threshold <= y) /\
      rows (Tree.select_rows train index) <> [] /\
      rows (Tree.select_rows train (invert index)) <> [] /\
      nondegenerate (Tree.select_rows train index) left_child /\
      nondegenerate (Tree.select_rows train (invert index)) right_child
  end.

(** [leaf_at node k]: some leaf of [node] lies [k] edges below its root. *)
Inductive leaf_at : TreeNode -> nat -> Prop :=
| leaf_at_leaf score : leaf_at (Leaf score) 0
| leaf_at_left f t l r k : leaf_at l k -> leaf_at (Internal f t l r) (S k)
| leaf_at_right f t l r k : leaf_at r k -> leaf_at (Internal f t l r) (S k).

(** The tree configuration an ensemble hands to each of its trees. *)
Definition tree_of (self : GBDT.t) (root : option TreeNode) : Tree.t :=
  Tree.Build (GBDT.max_depth self) (GBDT.min_sample_split self)
    (GBDT.reg_lambda self) (GBDT.gamma self) root.

(** The boosting rounds as the specification words them: in each round a
    fresh tree is fitted on the gradient and hessian of the running score, and
    its predictions on the training samples, scaled by the learning rate, are
    added to the running score. *)
Fixpoint boosting_rounds (cfg : Tree.t) (learning_rate : Q) (l : Loss.t)
    (train : matrix) (target : list Q) (n : nat) (score : list Q)
    : result (list TreeNode) :=
  match n with
  | O => Ok []
  | S n' =>
      gv <- Loss.g l target score ;;
      hv <- Loss.h l target score ;;
      root <- Tree.construct_tree cfg train gv hv (Tree.max_depth cfg) ;;
      p <- mapM (Tree.predict_single root) (rows train) ;;
      score' <- iadd score (scale learning_rate p) ;;
      roots <- boosting_rounds cfg learning_rate l train target n' score' ;;
      Ok (root :: roots)
  end.

(** The raw score of one sample: the start score plus the scaled predictions
    of the trees, added in the order the trees were fitted. *)
Definition ensemble_score (learning_rate : Q) (roots : list TreeNode)
    (score_start : Q) (row : list Q) : result Q :=
  ps <- mapM (fun root => Tree.predict_single root row) roots ;;
  Ok (fold_left (fun acc p => acc + learning_rate * p) ps score_start).

(** The stopping test of [construct_tree], before any split search. *)
Definition stops_early (self : Tree.t) (train : matrix) (max_depth : Z) : Prop :=
  (max_depth = 0)%Z \/ (Z.of_nat (nrows train) < Tree.min_sample_split self)%Z.

(** The state of [find_best_split] after the first [k] columns. *)
Definition split_invariant (train : matrix) (g h : list Q) (reg_lambda : Q)
    (k : nat) (st : nat * option Q * Q) : Prop :=
  let '(feature, threshold, best_gain) := st in
  (forall i, (i < k)%nat ->
     exists thi gi,
       find_threshold g h (column train i) reg_lambda = Ok (thi, gi) /\
       gi <= best_gain) /\
  ((feature = 0%nat /\ threshold = None /\ best_gain = 0) \/
   ((feature < k)%nat /\
    find_threshold g h (column train feature) reg_lambda
      = Ok (threshold, best_gain) /\
    0 < best_gain /\
    forall i thi gi,
      (i < feature)%nat ->
      find_threshold g h (column train i) reg_lambda = Ok (thi, gi) ->
      gi < best_gain)).

(** The running score after the trees [roots], row by row. *)
Fixpoint accumulate (learning_rate : Q) (test : matrix)
    (roots : list TreeNode) (score : list Q) : result (list Q) :=
  match roots with
  | [] => Ok score
  | root :: roots' =>
      p <- mapM (Tree.predict_single root) (rows test) ;;
      score' <- iadd score (scale learning_rate p) ;;
      accumulate learning_rate test roots' score'
  end.

(** The end-to-end scenario of the specification: four samples of one
    feature, squared error, one round, one level. *)
Definition example_train : matrix := Matrix 1 [[1]; [2]; [3]; [4]].

Definition example_target : list Q := [1; 1; 10; 10].

Definition example_gbdt : GBDT.t :=
  GBDT.Build (GBDT.LossName "mse") 1 1 1 0 1 1 None None.

Definition example_fitted : GBDT.t :=
  GBDT.Build (GBDT.LossObj Loss.mse) 1 1 1 0 1 1
    (Some
       [Tree.Build 1 1 1 0
          (Some (Internal 0 (5 # 2) (Leaf (-144 # 48)) (Leaf (144 # 48))))])
    (Some (22 # 4)).

(** The state [fit] starts its loop from. *)
Definition fit_start (self : GBDT.t) (m : Q) : GBDT.t :=
  GBDT.Build
    (if GBDT.is_mse (GBDT.loss self) then GBDT.LossObj Loss.mse
     else GBDT.loss self)
    (GBDT.max_depth self) (GBDT.min_sample_split self) (GBDT.reg_lambda self)
    (GBDT.gamma self) (GBDT.learning_rate self) (GBDT.n_estimators self)
    (Some []) (Some m).

(** The number of leaves of a tree. *)
Fixpoint leaves (node : TreeNode) : nat :=
  match node with
  | Leaf _ => 1
  | Internal _ _ l r => leaves l + leaves r
  end.

(** Every split feature of the tree is an index below [n]. *)
Fixpoint features_below (n : nat) (node : TreeNode) : Prop :=
  match node with
  | Leaf _ => True
  | Internal f _ l r =>
      (f < n)%nat /\ features_below n l /\ features_below n r
  end.

(** The training samples, with their gradients and hessians, that share the
    leaf a sample [row] is routed to: at every internal node on the way, the
    group of the side [row] falls on. *)
Fixpoint leaf_group (node : TreeNode) (train : matrix) (g h row : list Q)
    : matrix * list Q * list Q :=
  match node with
  | Leaf _ => (train, g, h)
  | Internal f t l r =>
      let index := Tree.less_than (column train f) t in
      if Qltb (nth f row 0) t
      then leaf_group l (Tree.select_rows train index)
             (compress g index) (compress h index) row
      else leaf_group r (Tree.select_rows train (invert index))
             (compress g (invert index)) (compress h (invert index)) row
  end.

(** The ensemble [fit] returns for the trees [roots]. *)
Definition fitted_with (self : GBDT.t) (l : Loss.t) (m : Q)
    (roots : list TreeNode) : GBDT.t :=
  GBDT.Build (GBDT.LossObj l) (GBDT.max_depth self)
    (GBDT.min_sample_split self) (GBDT.reg_lambda self) (GBDT.gamma self)
    (GBDT.learning_rate self) (GBDT.n_estimators self)
    (Some (map (fun root => tree_of self (Some root)) roots)) (Some m).


(** * Properties *)

(** ** The error monad and the loops *)

Lemma bind_Ok {A B : Type} (r : result A) (k : A -> result B) (b : B) :
  bind r k = Ok b -> exists a, r = Ok a /\ k a = Ok b.
Proof.
  destruct r as [a|e]; simpl; intros H; [exists a; auto | discriminate].
Qed.


(** A loop whose body preserves an invariant and never raises returns a state
    that satisfies the invariant. *)
Lemma for_loop_invariant {S : Type} (P : S -> Prop) (idx : list nat)
    (body : nat -> S -> result S) (s : S) :
  P s ->
  (forall i s0, In i idx -> P s0 -> exists s1, body i s0 = Ok s1 /\ P s1) ->
  exists s', for_loop idx body s = Ok s' /\ P s'.
Proof.
  revert s; induction idx as [|i idx IH]; intros s Hs Hbody; simpl.
  - exists s; auto.
  - destruct (Hbody i s (or_introl eq_refl) Hs) as (s1 & E & Hs1).
    rewrite E; simpl. apply IH; [assumption|].
    intros j s0 Hj; apply Hbody; right; assumption.
Qed.

(** The same for a loop that is known to have returned. *)
Lemma for_loop_preserves {S : Type} (P : S -> Prop) (idx : list nat)
    (body : nat -> S -> result S) (s s' : S) :
  P s ->
  (forall i s0 s1, In i idx -> P s0 -> body i s0 = Ok s1 -> P s1) ->
  for_loop idx body s = Ok s' -> P s'.
Proof.
  revert s; induction idx as [|i idx IH]; intros s Hs Hbody; simpl.
  - intros E; injection E as <-; assumption.
  - intros E. apply bind_Ok in E as (s1 & E1 & E2).
    apply (IH s1); [eapply Hbody; eauto; left; reflexivity| |assumption].
    intros j s0 s2 Hj; apply Hbody; right; assumption.
Qed.

Lemma getitem_Ok {A : Type} (l : list A) (i : nat) (x : A) :
  getitem l i = Ok x <-> nth_error l i = Some x.
Proof.
  unfold getitem; destruct (nth_error l i); split; intros E;
    try discriminate; injection E as <-; reflexivity.
Qed.

Lemma getitem_app_r {A : Type} (l1 l2 : list A) (x : A) :
  getitem (l1 ++ x :: l2) (length l1) = Ok x.
Proof.
  apply getitem_Ok. rewrite nth_error_app2, Nat.sub_diag by lia. reflexivity.
Qed.

Lemma getitem_app_len {A : Type} (l1 l2 : list A) (x : A) (n : nat) :
  length l1 = n -> getitem (l1 ++ x :: l2) n = Ok x.
Proof. intros <-; apply getitem_app_r. Qed.

(** ** Comparisons and division *)

Lemma Qltb_lt (a b : Q) : Qltb a b = true <-> a < b.
Proof.
  unfold Qltb; rewrite Qlt_alt. destruct (a ?= b); split; congruence.
Qed.

Lemma Qltb_ge (a b : Q) : Qltb a b = false <-> b <= a.
Proof.
  unfold Qltb. change (b <= a) with (a >= b). rewrite Qge_alt.
  destruct (a ?= b); split; congruence.
Qed.

Lemma div_Ok (a b : Q) : ~ b == 0 -> div a b = Ok (a / b).
Proof.
  intros Hb; unfold div. destruct (Qeq_bool b 0) eqn:E; [|reflexivity].
  apply Qeq_bool_iff in E; contradiction.
Qed.

Lemma div_inv (a b q : Q) : div a b = Ok q -> ~ b == 0 /\ q = a / b.
Proof.
  unfold div; destruct (Qeq_bool b 0) eqn:E; [discriminate|].
  intros H; injection H as <-. split; [|reflexivity].
  intros Hb; apply Qeq_bool_iff in Hb; congruence.
Qed.

Lemma div_Err (a b : Q) : b == 0 -> div a b = Err ZeroDivisionError.
Proof.
  intros Hb; unfold div. apply Qeq_bool_iff in Hb. rewrite Hb. reflexivity.
Qed.

(** C10: for empty gradient and hessian vectors and any [reg_lambda > 0],
    [leaf_score] and [leaf_loss] both return, and return zero: the empty sums
    are zero and the divisor [reg_lambda] is not. *)
Theorem leaf_empty_total (reg_lambda : Q) :
  0 < reg_lambda ->
  (exists s, leaf_score [] [] reg_lambda = Ok s /\ s == 0) /\
  (exists l, leaf_loss [] [] reg_lambda = Ok l /\ l == 0).
Proof.
  intros Hl. unfold leaf_score, leaf_loss; simpl sum.
  assert (Hd : ~ 0 + reg_lambda == 0) by lra.
  rewrite !div_Ok by assumption. split; eexists; (split; [reflexivity|]).
  - field; lra.
  - unfold square; field; lra.
Qed.

Lemma leaf_empty_total_witness :
  (exists s, leaf_score [] [] 1 = Ok s /\ s == 0) /\
  (exists l, leaf_loss [] [] 1 = Ok l /\ l == 0).
Proof. apply (leaf_empty_total 1). reflexivity. Defined.

(** ** The split evaluator *)

(** The sums [calculate_gain] accumulates are the sums of the two groups of
    the partition [feature < threshold]. *)
Lemma gain_loop_sums (threshold : Q) (f2 : list Q) :
  forall (f1 g1 h1 g2 h2 : list Q) (lg lh rg rh : Q),
    length g1 = length f1 -> length h1 = length f1 ->
    length g2 = length f2 -> length h2 = length f2 ->
    exists lg' lh' rg' rh',
      for_loop (seq (length f1) (length f2))
        (gain_body (f1 ++ f2) (g1 ++ g2) (h1 ++ h2) threshold)
        (lg, lh, rg, rh) = Ok (lg', lh', rg', rh') /\
      lg' == lg + sum (compress g2 (Tree.less_than f2 threshold)) /\
      lh' == lh + sum (compress h2 (Tree.less_than f2 threshold)) /\
      rg' == rg + sum (compress g2 (invert (Tree.less_than f2 threshold))) /\
      rh' == rh + sum (compress h2 (invert (Tree.less_than f2 threshold))).
Proof.
  induction f2 as [|x f2 IH]; intros f1 g1 h1 g2 h2 lg lh rg rh Hg1 Hh1 Hg2 Hh2.
  - destruct g2; [|discriminate]. destruct h2; [|discriminate].
    exists lg, lh, rg, rh; simpl. repeat split; lra.
  - destruct g2 as [|gi g2]; [discriminate|].
    destruct h2 as [|hi h2]; [discriminate|].
    simpl in Hg2, Hh2. injection Hg2 as Hg2. injection Hh2 as Hh2.
    simpl length. simpl seq. simpl for_loop.
    rewrite (getitem_app_len f1), (getitem_app_len g1), (getitem_app_len h1)
      by auto.
    simpl bind.
    assert (IH' := fun lg lh rg rh =>
      IH (f1 ++ [x]) (g1 ++ [gi]) (h1 ++ [hi]) g2 h2 lg lh rg rh
        ltac:(rewrite !length_app; simpl; lia)
        ltac:(rewrite !length_app; simpl; lia) Hg2 Hh2).
    clear IH. rewrite <- !app_assoc in IH'. simpl app in IH'.
    rewrite length_app in IH'. simpl length in IH'.
    rewrite Nat.add_1_r in IH'.
    destruct (Qltb x threshold) eqn:Ex; simpl bind.
    + destruct (IH' (lg + gi) (lh + hi) rg rh)
        as (lg' & lh' & rg' & rh' & E & A & B & C & D).
      exists lg', lh', rg', rh'. split; [exact E|].
      simpl Tree.less_than. rewrite Ex. simpl. repeat split; lra.
    + destruct (IH' lg lh (rg + gi) (rh + hi))
        as (lg' & lh' & rg' & rh' & E & A & B & C & D).
      exists lg', lh', rg', rh'. split; [exact E|].
      simpl Tree.less_than. rewrite Ex. simpl. repeat split; lra.
Qed.

(** The sum of a vector is the sum of the two groups of any partition. *)
Lemma sum_compress (v : list Q) (index : list bool) :
  length index = length v ->
  sum v == sum (compress v index) + sum (compress v (invert index)).
Proof.
  revert index; induction v as [|x v IH]; intros [|b index] Hl;
    try discriminate; simpl; [lra|].
  injection Hl as Hl. specialize (IH index Hl).
  destruct b; simpl; lra.
Qed.

Lemma less_than_length (col : list Q) (t : Q) :
  length (Tree.less_than col t) = length col.
Proof. apply length_map. Qed.

(** [calculate_gain] in closed form: the loss of the unsplit leaf minus the
    losses of the two groups. *)
Lemma calculate_gain_closed (original_loss : Q) (feature g h : list Q)
    (threshold reg_lambda : Q) :
  length g = length feature -> length h = length feature ->
  let index := Tree.less_than feature threshold in
  ~ sum (compress h index) + reg_lambda == 0 ->
  ~ sum (compress h (invert index)) + reg_lambda == 0 ->
  exists gain,
    calculate_gain original_loss feature g h threshold reg_lambda = Ok gain /\
    gain == original_loss
            - (-1 # 2) * square (sum (compress g index))
              / (sum (compress h index) + reg_lambda)
            - (-1 # 2) * square (sum (compress g (invert index)))
              / (sum (compress h (invert index)) + reg_lambda).
Proof.
  intros Hg Hh index Hl Hr.
  destruct (gain_loop_sums threshold feature [] [] [] g h 0 0 0 0
              eq_refl eq_refl Hg Hh)
    as (lg & lh & rg & rh & E & A & B & C & D).
  fold index in A, B, C, D.
  unfold calculate_gain, range. rewrite Nat.sub_0_r.
  simpl app in E. simpl length in E. rewrite E. simpl bind.
  rewrite Qplus_0_l in A, B, C, D.
  rewrite (div_Ok _ (lh + reg_lambda)) by (rewrite B; exact Hl). simpl bind.
  rewrite (div_Ok _ (rh + reg_lambda)) by (rewrite D; exact Hr). simpl bind.
  eexists; split; [reflexivity|].
  unfold square. rewrite A, B, C, D. reflexivity.
Qed.

Lemma square_nonneg (x : Q) : 0 <= square x.
Proof.
  unfold square. destruct (Qlt_le_dec x 0) as [Hx|Hx].
  - setoid_replace (x * x) with ((- x) * (- x)) by ring.
    apply Qmult_le_0_compat; lra.
  - apply Qmult_le_0_compat; assumption.
Qed.

Lemma Qmult_pos (p q : Q) : 0 < p -> 0 < q -> 0 < p * q.
Proof.
  intros Hp Hq. setoid_replace 0 with (0 * q) by ring.
  apply Qmult_lt_compat_r; assumption.
Qed.

(** Cauchy-Schwarz for two groups with positive weights. *)
Lemma split_loss_le (a b p q : Q) :
  0 < p -> 0 < q ->
  0 <= (-1 # 2) * square (a + b) / (p + q)
       - (-1 # 2) * square a / p - (-1 # 2) * square b / q.
Proof.
  intros Hp Hq. unfold square.
  assert (E : (-1 # 2) * ((a + b) * (a + b)) / (p + q)
              - (-1 # 2) * (a * a) / p - (-1 # 2) * (b * b) / q
              == (1 # 2) * ((a * q - b * p) * (a * q - b * p))
                 * / (p * q * (p + q))) by (field; repeat split; intro; lra).
  rewrite E. apply Qmult_le_0_compat.
  - pose proof (square_nonneg (a * q - b * p)) as Hs. unfold square in Hs.
    lra.
  - apply Qinv_le_0_compat. apply Qlt_le_weak.
    apply Qmult_pos; [apply Qmult_pos; assumption | lra].
Qed.

(** C1, as stated, fails under regularisation: two samples with equal
    gradients lose by being split when [reg_lambda = 1]. *)
Lemma calculate_gain_negative_example :
  let g := [1; 1] in
  let h := [1; 1] in
  let column := [1; 2] in
  let threshold := 3 # 2 in
  let index := Tree.less_than column threshold in
  0 <= 1 /\
  (In 1 column /\ In 2 column /\ 1 < threshold /\ threshold < 2) /\
  0 < sum (compress h index) + 1 /\
  0 < sum (compress h (invert index)) + 1 /\
  0 < sum h + 1 /\
  leaf_loss g h 1 = Ok (-4 # 6) /\
  calculate_gain (-4 # 6) column g h threshold 1 = Ok (-16 # 96) /\
  ~ 0 <= -16 # 96.
Proof.
  cbv zeta. repeat split; try reflexivity; try (simpl; tauto);
    try discriminate.
  intros H; apply H; reflexivity.
Qed.

(** C1, amended: without regularisation ([reg_lambda = 0]) a split never
    increases the loss: the gain of any threshold strictly between two
    observed values, whose two groups have positive hessian sums, is
    non-negative. *)
Theorem calculate_gain_nonneg (g h column : list Q) (threshold reg_lambda : Q) :
  g <> [] -> length h = length g -> length column = length g ->
  reg_lambda == 0 ->
  (exists a b, In a column /\ In b column /\ a < threshold /\ threshold < b) ->
  let index := Tree.less_than column threshold in
  0 < sum (compress h index) + reg_lambda ->
  0 < sum (compress h (invert index)) + reg_lambda ->
  exists loss gain,
    leaf_loss g h reg_lambda = Ok loss /\
    calculate_gain loss column g h threshold reg_lambda = Ok gain /\
    0 <= gain.
Proof.
  intros _ Hh Hc Hz _ index Hl Hr.
  assert (Hi : length index = length column) by apply less_than_length.
  pose proof (sum_compress g index ltac:(congruence)) as Sg.
  pose proof (sum_compress h index ltac:(congruence)) as Sh.
  set (p := sum (compress h index)) in *.
  set (q := sum (compress h (invert index))) in *.
  set (a := sum (compress g index)) in *.
  set (b := sum (compress g (invert index))) in *.
  unfold leaf_loss. rewrite div_Ok by (rewrite Sh; intro; lra).
  destruct (calculate_gain_closed
              ((-1 # 2) * square (sum g) / (sum h + reg_lambda))
              column g h threshold reg_lambda)
    as (gain & E & V); try congruence.
  - fold index; fold p; intro; lra.
  - fold index; fold q; intro; lra.
  - do 2 eexists; split; [reflexivity|]. split; [exact E|].
    rewrite V. fold index a b p q. unfold square. rewrite Sg, Sh, Hz.
    pose proof (split_loss_le a b p q ltac:(lra) ltac:(lra)) as H.
    unfold square in H.
    setoid_replace (p + q + 0) with (p + q) by ring.
    setoid_replace (p + 0) with p by ring.
    setoid_replace (q + 0) with q by ring.
    exact H.
Qed.

Lemma calculate_gain_nonneg_witness :
  exists loss gain,
    leaf_loss [1; -1] [1; 1] 0 = Ok loss /\
    calculate_gain loss [1; 2] [1; -1] [1; 1] (3 # 2) 0 = Ok gain /\
    0 <= gain.
Proof.
  apply (calculate_gain_nonneg [1; -1] [1; 1] [1; 2] (3 # 2) 0);
    try reflexivity; try discriminate.
  exists 1, 2. repeat split; simpl; auto.
Defined.

(** ** [np.unique] and the candidate thresholds *)

Lemma insert_unique_In (x y : Q) (l : list Q) :
  In y (insert_unique x l) -> y = x \/ In y l.
Proof.
  induction l as [|z l IH]; simpl.
  - intros [<-|[]]; auto.
  - destruct (x ?= z); simpl; intros H; auto.
    + destruct H as [<-|H]; auto.
    + destruct H as [<-|H]; auto. destruct (IH H); auto.
Qed.

Lemma insert_unique_keeps (x y : Q) (l : list Q) :
  In y l -> In y (insert_unique x l).
Proof.
  induction l as [|z l IH]; simpl; [tauto|].
  destruct (x ?= z); simpl; intros [<-|H]; auto.
Qed.

Lemma insert_unique_mem (x : Q) (l : list Q) :
  exists y, In y (insert_unique x l) /\ x == y.
Proof.
  induction l as [|z l (y & Hy & E)]; simpl.
  - exists x; split; [auto | reflexivity].
  - destruct (x ?= z) eqn:C.
    + exists z; split; [left; reflexivity | apply Qeq_alt; assumption].
    + exists x; split; [left; reflexivity | reflexivity].
    + exists y; split; [right; assumption | assumption].
Qed.

Lemma insert_unique_sorted (x : Q) (l : list Q) :
  StronglySorted Qlt l -> StronglySorted Qlt (insert_unique x l).
Proof.
  induction 1 as [|z l Hs IH Hz]; simpl.
  - repeat constructor.
  - destruct (x ?= z) eqn:C.
    + constructor; assumption.
    + apply Qlt_alt in C. constructor; [constructor; assumption|].
      constructor; [assumption|].
      rewrite Forall_forall in *; intros w Hw.
      apply Qlt_trans with z; auto.
    + apply Qgt_alt in C. constructor; [assumption|].
      rewrite Forall_forall in *; intros w Hw.
      destruct (insert_unique_In _ _ _ Hw) as [->|Hw']; auto.
Qed.

(** [unique] returns the values of its argument, each once, in increasing
    order. *)
Lemma unique_spec (l : list Q) :
  StronglySorted Qlt (unique l) /\
  (forall x, In x (unique l) -> In x l) /\
  (forall x, In x l -> exists y, In y (unique l) /\ x == y).
Proof.
  induction l as [|z l (Hs & Hin & Hmem)]; simpl.
  - split; [constructor|]. split; [tauto|]. intros x [].
  - split; [apply insert_unique_sorted; assumption|]. split.
    + intros x Hx. destruct (insert_unique_In _ _ _ Hx); auto.
    + intros x [<-|Hx]; [apply insert_unique_mem|].
      destruct (Hmem x Hx) as (y & Hy & E).
      exists y; split; [apply insert_unique_keeps; assumption | assumption].
Qed.

(** The midpoints are those of the adjacent pairs. *)
Lemma midpoints_adjacent (v : list Q) (m : Q) :
  In m (midpoints v) <->
  exists pre a b post, v = pre ++ a :: b :: post /\ m = (a + b) / 2.
Proof.
  induction v as [|a v IH]; simpl.
  - split; [tauto|]. intros (pre & a & b & post & E & _).
    destruct pre; discriminate.
  - destruct v as [|b v].
    + split; [intros []|]. intros (pre & a' & b' & post & E & _).
      destruct pre as [|? [|]]; discriminate.
    + split.
      * intros [<-|H]; [exists [], a, b, v; auto|].
        apply IH in H as (pre & a' & b' & post & E & Em).
        exists (a :: pre), a', b', post. rewrite E. auto.
      * intros (pre & a' & b' & post & E & Em). destruct pre as [|x pre].
        -- injection E as -> -> _. left; symmetry; assumption.
        -- injection E as -> E. right. apply IH.
           exists pre, a', b', post; auto.
Qed.

Lemma midpoints_above (a : Q) (v : list Q) :
  StronglySorted Qlt (a :: v) -> Forall (fun m => a < m) (midpoints (a :: v)).
Proof.
  revert a; induction v as [|b v IH]; intros a Hs; [constructor|].
  change (midpoints (a :: b :: v)) with ((a + b) / 2 :: midpoints (b :: v)).
  inversion Hs as [|? ? Hs' Ha]; subst. inversion Ha as [|? ? Hab _]; subst.
  constructor.
  - apply Qlt_shift_div_l; lra.
  - specialize (IH b Hs'). rewrite Forall_forall in *; intros m Hm.
    apply Qlt_trans with b; auto.
Qed.

Lemma midpoints_sorted (v : list Q) :
  StronglySorted Qlt v -> StronglySorted Qlt (midpoints v).
Proof.
  induction v as [|a v IH]; intros Hs; [constructor|].
  destruct v as [|b v]; [constructor|].
  change (midpoints (a :: b :: v)) with ((a + b) / 2 :: midpoints (b :: v)).
  inversion Hs as [|? ? Hs' Ha]; subst. inversion Ha as [|? ? Hab _]; subst.
  constructor; [apply IH; assumption|].
  pose proof (midpoints_above b v Hs') as Hb.
  rewrite Forall_forall in *; intros m Hm.
  apply Qlt_trans with b; auto. apply Qlt_shift_div_r; lra.
Qed.

(** A candidate lies strictly between two distinct values of the column. *)
Lemma candidates_between (train : list Q) (t : Q) :
  In t (candidates train) ->
  exists a b, In a train /\ In b train /\ a < b /\ t = (a + b) / 2 /\
              a < t /\ t < b.
Proof.
  intros H. apply midpoints_adjacent in H as (pre & a & b & post & E & ->).
  destruct (unique_spec train) as (Hs & Hin & _). rewrite E in Hs, Hin.
  assert (Hab : a < b).
  { clear - Hs. induction pre as [|x pre IH]; simpl in Hs.
    - inversion Hs as [|? ? _ Ha]; subst. inversion Ha; assumption.
    - inversion Hs; auto. }
  exists a, b. repeat split.
  - apply Hin, in_or_app; right; left; reflexivity.
  - apply Hin, in_or_app; right; right; left; reflexivity.
  - assumption.
  - apply Qlt_shift_div_l; lra.
  - apply Qlt_shift_div_r; lra.
Qed.

(** ** Threshold search *)

(** The index loop of [find_threshold] is a scan over the candidates. *)
Lemma threshold_loop_scan (loss : Q) (g h train : list Q) (reg_lambda : Q)
    (suf : list Q) :
  forall (pre : list Q) (a : Q) (st : option Q * Q),
    for_loop (seq (S (length pre)) (length suf))
      (threshold_body loss g h train (pre ++ a :: suf) reg_lambda) st
    = scan (fun c => calculate_gain loss train g h c reg_lambda)
        (midpoints (a :: suf)) st.
Proof.
  induction suf as [|b suf IH]; intros pre a [threshold best_gain];
    [reflexivity|].
  change (midpoints (a :: b :: suf)) with ((a + b) / 2 :: midpoints (b :: suf)).
  simpl length. simpl seq. simpl for_loop. simpl scan.
  rewrite Nat.sub_0_r, getitem_app_r. simpl bind.
  replace (pre ++ a :: b :: suf) with ((pre ++ [a]) ++ b :: suf)
    by (rewrite <- app_assoc; reflexivity).
  rewrite (getitem_app_len (pre ++ [a]))
    by (rewrite length_app; simpl; lia).
  simpl bind.
  destruct (calculate_gain loss train g h ((a + b) / 2) reg_lambda)
    as [this_gain|e]; simpl bind; [|reflexivity].
  specialize (IH (pre ++ [a]) b).
  rewrite length_app in IH; simpl length in IH. rewrite Nat.add_1_r in IH.
  destruct (Qltb best_gain this_gain); simpl bind; apply IH.
Qed.

Lemma find_threshold_scan (g h train : list Q) (reg_lambda : Q) :
  find_threshold g h train reg_lambda =
  (loss <- leaf_loss g h reg_lambda ;;
   scan (fun c => calculate_gain loss train g h c reg_lambda)
     (candidates train) (None, 0)).
Proof.
  unfold find_threshold, candidates, range.
  destruct (leaf_loss g h reg_lambda) as [loss|e]; simpl; [|reflexivity].
  destruct (unique train) as [|a suf]; [reflexivity|].
  simpl length. rewrite Nat.sub_succ, Nat.sub_0_r.
  apply (threshold_loop_scan loss g h train reg_lambda suf []).
Qed.

(** What a scan returns: an upper bound of all gains and of the initial best;
    either nothing improved on the initial best, or the result is the first
    candidate that attains the greatest gain. *)
Lemma scan_spec (gain : Q -> result Q) (cands : list Q) :
  forall (th0 : option Q) (b0 : Q) (th : option Q) (best : Q),
    scan gain cands (th0, b0) = Ok (th, best) ->
    (forall c, In c cands -> exists gc, gain c = Ok gc /\ gc <= best) /\
    b0 <= best /\
    ((th = th0 /\ best = b0) \/
     (exists pre t post,
        cands = pre ++ t :: post /\ th = Some t /\ gain t = Ok best /\
        b0 < best /\
        forall c gc, In c pre -> gain c = Ok gc -> gc < best)).
Proof.
  induction cands as [|c cands IH]; intros th0 b0 th best; simpl.
  - intros E; injection E as <- <-. split; [tauto|]. split; [lra | auto].
  - intros E. apply bind_Ok in E as (gc & Ec & E).
    destruct (Qltb b0 gc) eqn:Hlt; apply IH in E as (Hall & Hb & Hcase).
    + apply Qltb_lt in Hlt. split; [|split; [lra|right]].
      * intros c' [<-|Hc']; [exists gc; auto | auto].
      * destruct Hcase as [(-> & ->)|(pre & t & post & -> & -> & Et & Hgt & Hpre)].
        -- exists [], c, cands. repeat split; auto. intros ? ? [].
        -- exists (c :: pre), t, post. repeat split; auto; [lra|].
           intros c' gc' [<-|Hc'] Eg; [|eauto].
           rewrite Ec in Eg; injection Eg as <-; assumption.
    + apply Qltb_ge in Hlt. split; [|split; [assumption|]].
      * intros c' [<-|Hc']; [exists gc; split; [assumption | lra] | auto].
      * destruct Hcase as [(-> & ->)|(pre & t & post & -> & -> & Et & Hgt & Hpre)];
          [left; auto | right].
        exists (c :: pre), t, post. repeat split; auto.
        intros c' gc' [<-|Hc'] Eg; [|eauto].
        rewrite Ec in Eg; injection Eg as <-; lra.
Qed.

Lemma scan_total (gain : Q -> result Q) (cands : list Q) :
  (forall c, In c cands -> exists gc, gain c = Ok gc) ->
  forall st, exists r, scan gain cands st = Ok r.
Proof.
  induction cands as [|c cands IH]; intros Hg st; simpl; [eauto|].
  destruct (Hg c (or_introl eq_refl)) as (gc & ->); simpl.
  apply IH. intros c' Hc'; apply Hg; right; assumption.
Qed.

Lemma StronglySorted_app_tail (pre post : list Q) (t : Q) :
  StronglySorted Qlt (pre ++ t :: post) -> Forall (Qlt t) post.
Proof.
  induction pre as [|x pre IH]; simpl; intros Hs; inversion Hs; auto.
Qed.

(** ** Non-negative hessians keep every division defined *)

Lemma sum_nonneg (h : list Q) : nonneg h -> 0 <= sum h.
Proof. induction 1; simpl; lra. Qed.

Lemma compress_nonneg (h : list Q) (index : list bool) :
  nonneg h -> nonneg (compress h index).
Proof.
  intros Hh; revert index; induction Hh as [|x h Hx Hh IH]; intros [|[] index];
    simpl; try constructor; auto; apply IH.
Qed.

Lemma leaf_loss_total (g h : list Q) (reg_lambda : Q) :
  nonneg h -> 0 < reg_lambda -> exists l, leaf_loss g h reg_lambda = Ok l.
Proof.
  intros Hh Hl. pose proof (sum_nonneg h Hh).
  unfold leaf_loss. rewrite div_Ok by (intro; lra). eauto.
Qed.

Lemma leaf_score_total (g h : list Q) (reg_lambda : Q) :
  nonneg h -> 0 < reg_lambda -> exists s, leaf_score g h reg_lambda = Ok s.
Proof.
  intros Hh Hl. pose proof (sum_nonneg h Hh).
  unfold leaf_score. rewrite div_Ok by (intro; lra). eauto.
Qed.

Lemma calculate_gain_total (original_loss : Q) (feature g h : list Q)
    (threshold reg_lambda : Q) :
  length g = length feature -> length h = length feature ->
  nonneg h -> 0 < reg_lambda ->
  exists gain,
    calculate_gain original_loss feature g h threshold reg_lambda = Ok gain.
Proof.
  intros Hg Hh Hn Hl.
  destruct (calculate_gain_closed original_loss feature g h threshold
              reg_lambda Hg Hh) as (gain & E & _); [| |eauto].
  - pose proof (sum_nonneg _ (compress_nonneg h
                  (Tree.less_than feature threshold) Hn)). intro; lra.
  - pose proof (sum_nonneg _ (compress_nonneg h
                  (invert (Tree.less_than feature threshold)) Hn)).
    intro; lra.
Qed.

Lemma find_threshold_total (g h train : list Q) (reg_lambda : Q) :
  length g = length train -> length h = length train ->
  nonneg h -> 0 < reg_lambda ->
  exists r, find_threshold g h train reg_lambda = Ok r.
Proof.
  intros Hg Hh Hn Hl. rewrite find_threshold_scan.
  destruct (leaf_loss_total g h reg_lambda Hn Hl) as (loss & ->); simpl.
  apply scan_total. intros c _. apply calculate_gain_total; assumption.
Qed.

(** What [find_threshold] returns, for every input on which it returns. *)
Lemma find_threshold_result (g h train : list Q) (reg_lambda : Q)
    (threshold : option Q) (best_gain : Q) :
  find_threshold g h train reg_lambda = Ok (threshold, best_gain) ->
  exists loss,
    leaf_loss g h reg_lambda = Ok loss /\
    (forall c, In c (candidates train) ->
       exists gc, calculate_gain loss train g h c reg_lambda = Ok gc /\
                  gc <= best_gain) /\
    ((threshold = None /\ best_gain = 0) \/
     (exists t,
        threshold = Some t /\ In t (candidates train) /\
        calculate_gain loss train g h t reg_lambda = Ok best_gain /\
        0 < best_gain /\
        forall c gc,
          In c (candidates train) ->
          calculate_gain loss train g h c reg_lambda = Ok gc ->
          gc == best_gain -> t <= c)).
Proof.
  rewrite find_threshold_scan. intros E.
  apply bind_Ok in E as (loss & El & E). exists loss; split; [assumption|].
  apply scan_spec in E as (Hall & _ & Hcase). split; [assumption|].
  destruct Hcase as [?|(pre & t & post & Ec & -> & Et & Hpos & Hpre)];
    [left; assumption | right].
  exists t. rewrite Ec. repeat split; auto.
  - apply in_or_app; right; left; reflexivity.
  - intros c gc Hc Eg Heq. apply in_app_or in Hc as [Hc|[<-|Hc]].
    + specialize (Hpre c gc Hc Eg). lra.
    + lra.
    + destruct (unique_spec train) as (Hs & _).
      apply midpoints_sorted in Hs. fold (candidates train) in Hs.
      rewrite Ec in Hs. apply StronglySorted_app_tail in Hs.
      rewrite Forall_forall in Hs. apply Qlt_le_weak; auto.
Qed.

(** C7, as stated, fails when no candidate improves on the unsplit leaf: the
    only candidate of the column [[1; 2]], the midpoint [3/2], has the
    greatest gain there is, [-1/6], and is not returned. *)
Lemma find_threshold_no_positive_gain_example :
  let g := [1; 1] in
  let h := [1; 1] in
  let train := [1; 2] in
  candidates train = [(1 + 2) / 2] /\
  leaf_loss g h 1 = Ok (-4 # 6) /\
  calculate_gain (-4 # 6) train g h ((1 + 2) / 2) 1 = Ok (-16 # 96) /\
  find_threshold g h train 1 = Ok (None, 0).
Proof. cbv zeta. repeat split. Qed.

(** C7, amended: the candidates [find_threshold] evaluates are exactly the
    midpoints of consecutive values of the sorted distinct column values.  When
    some candidate has a strictly positive gain, the candidate of greatest gain
    is returned with its gain, the smallest such threshold when several attain
    it; when none has, the result is [(None, 0)]. *)
Theorem find_threshold_spec (g h train : list Q) (reg_lambda : Q) :
  (StronglySorted Qlt (unique train) /\
   (forall x, In x (unique train) -> In x train) /\
   (forall x, In x train -> exists y, In y (unique train) /\ x == y) /\
   (forall c, In c (candidates train) <->
      exists pre a b post,
        unique train = pre ++ a :: b :: post /\ c = (a + b) / 2)) /\
  (length g = length train -> length h = length train ->
   nonneg h -> 0 < reg_lambda ->
   exists r, find_threshold g h train reg_lambda = Ok r) /\
  (forall threshold best_gain,
     find_threshold g h train reg_lambda = Ok (threshold, best_gain) ->
     exists loss,
       leaf_loss g h reg_lambda = Ok loss /\
       (forall c, In c (candidates train) ->
          exists gc, calculate_gain loss train g h c reg_lambda = Ok gc /\
                     gc <= best_gain) /\
       ((threshold = None /\ best_gain = 0) \/
        (exists t,
           threshold = Some t /\ In t (candidates train) /\
           calculate_gain loss train g h t reg_lambda = Ok best_gain /\
           0 < best_gain /\
           forall c gc,
             In c (candidates train) ->
             calculate_gain loss train g h c reg_lambda = Ok gc ->
             gc == best_gain -> t <= c))).
Proof.
  split; [|split].
  - destruct (unique_spec train) as (Hs & Hin & Hmem).
    repeat split; auto; apply midpoints_adjacent.
  - apply find_threshold_total.
  - apply find_threshold_result.
Qed.

Lemma find_threshold_spec_witness :
  exists r, find_threshold [-1; 1; 2] [1; 1; 1] [3; 1; 2] 1 = Ok r.
Proof.
  apply (proj1 (proj2 (find_threshold_spec [-1; 1; 2] [1; 1; 1] [3; 1; 2] 1)));
    try reflexivity.
  - repeat constructor; discriminate.
Defined.

(** ** Best-split search *)

Lemma for_loop_seq_invariant {S : Type} (P : nat -> S -> Prop)
    (body : nat -> S -> result S) (n : nat) :
  forall (a : nat) (s s' : S),
    P a s ->
    (forall i s0 s1,
       (a <= i < a + n)%nat -> P i s0 -> body i s0 = Ok s1 -> P (Datatypes.S i) s1) ->
    for_loop (seq a n) body s = Ok s' -> P (a + n)%nat s'.
Proof.
  induction n as [|n IH]; intros a s s' Hs Hbody; simpl.
  - intros E; injection E as <-. rewrite Nat.add_0_r; assumption.
  - intros E. apply bind_Ok in E as (s1 & E1 & E2).
    rewrite <- Nat.add_succ_comm. apply (IH (Datatypes.S a) s1 s'); auto.
    + apply (Hbody a s s1); auto; lia.
    + intros i s0 s2 Hi; apply Hbody; lia.
Qed.

Lemma find_best_split_invariant (train : matrix) (g h : list Q)
    (reg_lambda : Q) (st : nat * option Q * Q) :
  find_best_split train g h reg_lambda = Ok st ->
  split_invariant train g h reg_lambda (ncols train) st.
Proof.
  unfold find_best_split, range. rewrite Nat.sub_0_r.
  apply (for_loop_seq_invariant (split_invariant train g h reg_lambda)
           (split_body train g h reg_lambda) (ncols train) 0%nat).
  - split; [intros i Hi; lia | left; auto].
  - intros k [[f th] best] s1 _ (Hall & Hcase) E. unfold split_body in E.
    apply bind_Ok in E as ([thk gk] & Ek & E).
    assert (Hbest : 0 <= best) by (destruct Hcase as [(_ & _ & ->)|(_ & _ & ? & _)]; lra).
    destruct (Qltb best gk) eqn:Hlt; injection E as <-.
    + apply Qltb_lt in Hlt. split.
      * intros i Hi. destruct (Nat.eq_dec i k) as [->|Hne].
        -- exists thk, gk; split; [assumption | lra].
        -- destruct (Hall i ltac:(lia)) as (thi & gi & Ei & Hle).
           exists thi, gi; split; [assumption | lra].
      * right. repeat split; auto; [lra|].
        intros i thi gi Hi Ei. destruct (Hall i Hi) as (thi' & gi' & Ei' & Hle).
        rewrite Ei in Ei'; injection Ei' as <- <-. lra.
    + apply Qltb_ge in Hlt. split.
      * intros i Hi. destruct (Nat.eq_dec i k) as [->|Hne].
        -- exists thk, gk; split; assumption.
        -- apply Hall; lia.
      * destruct Hcase as [?|(Hf & ?)]; [left; assumption | right].
        split; [lia | assumption].
Qed.

Lemma find_best_split_total (train : matrix) (g h : list Q) (reg_lambda : Q) :
  (forall i, (i < ncols train)%nat ->
     exists r, find_threshold g h (column train i) reg_lambda = Ok r) ->
  exists r, find_best_split train g h reg_lambda = Ok r.
Proof.
  intros Hcols. unfold find_best_split, range. rewrite Nat.sub_0_r.
  destruct (for_loop_invariant (fun _ => True) (seq 0 (ncols train))
              (split_body train g h reg_lambda) (0%nat, None, 0) I)
    as (r & E & _); [|eauto].
  intros i [[f th] best] Hi _. apply in_seq in Hi.
  destruct (Hcols i ltac:(lia)) as ([thi gi] & Ei).
  unfold split_body. rewrite Ei; simpl.
  destruct (Qltb best gi); eauto.
Qed.

(** C8: [find_best_split] runs [find_threshold] on every feature column, and
    returns whenever all of these return.  The gain it returns bounds the best
    gain of every column, and the feature it returns is the lowest index among
    the columns that attain it.  When some column has a strictly positive best
    gain, the result is that feature with the threshold and gain
    [find_threshold] finds for it; when every column's best gain is
    non-positive, the result is feature 0, no threshold, and gain 0. *)
Theorem find_best_split_spec (train : matrix) (g h : list Q) (reg_lambda : Q) :
  ((forall i, (i < ncols train)%nat ->
      exists r, find_threshold g h (column train i) reg_lambda = Ok r) ->
   exists r, find_best_split train g h reg_lambda = Ok r) /\
  (forall feature threshold best_gain,
     find_best_split train g h reg_lambda
       = Ok (feature, threshold, best_gain) ->
     (forall i, (i < ncols train)%nat ->
        exists thi gi,
          find_threshold g h (column train i) reg_lambda = Ok (thi, gi) /\
          gi <= best_gain /\
          (gi == best_gain -> (feature <= i)%nat)) /\
     ((exists i thi gi,
         (i < ncols train)%nat /\
         find_threshold g h (column train i) reg_lambda = Ok (thi, gi) /\
         0 < gi) ->
      (feature < ncols train)%nat /\
      find_threshold g h (column train feature) reg_lambda
        = Ok (threshold, best_gain)) /\
     ((forall i thi gi,
         (i < ncols train)%nat ->
         find_threshold g h (column train i) reg_lambda = Ok (thi, gi) ->
         gi <= 0) ->
      feature = 0%nat /\ threshold = None /\ best_gain = 0)).
Proof.
  split; [apply find_best_split_total|].
  intros f th best E. apply find_best_split_invariant in E as (Hall & Hcase).
  split; [|split].
  - intros i Hi. destruct (Hall i Hi) as (thi & gi & Ei & Hle).
    exists thi, gi. repeat split; auto. intros Heq.
    destruct Hcase as [(-> & _)|(_ & _ & _ & Hlow)]; [lia|].
    destruct (Nat.lt_ge_cases i f) as [Hlt|]; [|assumption].
    specialize (Hlow i thi gi Hlt Ei). lra.
  - intros (i & thi & gi & Hi & Ei & Hpos).
    destruct (Hall i Hi) as (thi' & gi' & Ei' & Hle).
    rewrite Ei in Ei'; injection Ei' as <- <-.
    destruct Hcase as [(_ & _ & ->)|(Hf & Ef & _)]; [lra | auto].
  - intros Hnonpos.
    destruct Hcase as [?|(Hf & Ef & Hpos & _)]; [assumption|].
    specialize (Hnonpos f th best Hf Ef). lra.
Qed.

Lemma find_best_split_spec_witness :
  exists r,
    find_best_split (Matrix 2 [[1; 5]; [2; 4]; [3; 4]]) [-1; 1; 2] [1; 1; 1] 1
    = Ok r.
Proof.
  apply (proj1 (find_best_split_spec (Matrix 2 [[1; 5]; [2; 4]; [3; 4]])
                  [-1; 1; 2] [1; 1; 1] 1)).
  intros i Hi. apply find_threshold_total; try reflexivity.
  - repeat constructor; discriminate.
Defined.

(** C9: [find_threshold] and [find_best_split] return the threshold [None]
    if and only if the gain they return is zero; a threshold that is not
    [None] comes with a strictly positive gain. *)
Theorem none_threshold_iff_zero_gain (train : matrix) (g h : list Q)
    (reg_lambda : Q) :
  (forall column threshold best_gain,
     find_threshold g h column reg_lambda = Ok (threshold, best_gain) ->
     (threshold = None <-> best_gain == 0) /\
     (threshold <> None -> 0 < best_gain)) /\
  (forall feature threshold best_gain,
     find_best_split train g h reg_lambda
       = Ok (feature, threshold, best_gain) ->
     (threshold = None <-> best_gain == 0) /\
     (threshold <> None -> 0 < best_gain)).
Proof.
  assert (Hft : forall column threshold best_gain,
     find_threshold g h column reg_lambda = Ok (threshold, best_gain) ->
     (threshold = None <-> best_gain == 0) /\
     (threshold <> None -> 0 < best_gain)).
  { intros column th best E.
    apply find_threshold_result in E as (loss & _ & _ & Hcase).
    destruct Hcase as [(-> & ->)|(t & -> & _ & _ & Hpos & _)].
    - split; [split; reflexivity | congruence].
    - split; [split; [discriminate | intro; lra] | auto]. }
  split; [exact Hft|].
  intros f th best E. apply find_best_split_invariant in E as (_ & Hcase).
  destruct Hcase as [(_ & -> & ->)|(_ & Ef & Hpos & _)].
  - split; [split; reflexivity | congruence].
  - destruct (Hft _ _ _ Ef) as (Hiff & _).
    split; [|auto]. split; [|intro; lra]. intros Hn; apply Hiff in Hn; lra.
Qed.

Lemma none_threshold_iff_zero_gain_witness :
  (Some (3 # 2) = None <-> 240 # 192 == 0) /\
  (Some (3 # 2) <> None -> 0 < 240 # 192).
Proof.
  apply (proj2 (none_threshold_iff_zero_gain
                  (Matrix 2 [[1; 5]; [2; 4]; [3; 4]]) [-1; 1; 2] [1; 1; 1] 1)
           0%nat (Some (3 # 2)) (240 # 192)).
  reflexivity.
Defined.

(** ** Masks *)

Lemma compress_map_filter {A : Type} (p : A -> bool) (l : list A) :
  compress l (map p l) = filter p l.
Proof.
  induction l as [|x l IH]; simpl; [reflexivity|].
  destruct (p x); rewrite IH; reflexivity.
Qed.

Lemma compress_length_eq {A B : Type} (l1 : list A) (l2 : list B)
    (index : list bool) :
  length l1 = length l2 ->
  length (compress l1 index) = length (compress l2 index).
Proof.
  revert l2 index; induction l1 as [|x l1 IH]; intros [|y l2] [|b index] Hl;
    try discriminate; simpl; auto.
  injection Hl as Hl. destruct b; simpl; auto.
Qed.

Lemma mask_select_Ok {A : Type} (l : list A) (index : list bool) :
  length index = length l -> mask_select l index = Ok (compress l index).
Proof. intros Hl; unfold mask_select. rewrite Hl, Nat.eqb_refl. reflexivity. Qed.

Lemma mask_select_inv {A : Type} (l l' : list A) (index : list bool) :
  mask_select l index = Ok l' ->
  length index = length l /\ l' = compress l index.
Proof.
  unfold mask_select. destruct (Nat.eqb_spec (length index) (length l));
    [|discriminate].
  intros E; injection E as <-; auto.
Qed.

Lemma invert_length (index : list bool) : length (invert index) = length index.
Proof. apply length_map. Qed.

Lemma column_length (train : matrix) (j : nat) :
  length (column train j) = nrows train.
Proof. apply length_map. Qed.

(** The mask of a split, seen on the rows. *)
Lemma split_mask_rows (train : matrix) (f : nat) (t : Q) :
  let index := Tree.less_than (column train f) t in
  rows (Tree.select_rows train index)
    = filter (fun r => Qltb (nth f r 0) t) (rows train) /\
  rows (Tree.select_rows train (invert index))
    = filter (fun r => negb (Qltb (nth f r 0) t)) (rows train).
Proof.
  unfold Tree.less_than, Tree.select_rows, invert, column; simpl.
  rewrite !map_map. split; apply compress_map_filter.
Qed.

(** A threshold with a value below it and a value not below it leaves both
    groups non-empty, hence both smaller than the whole. *)
Lemma split_groups (train : matrix) (f : nat) (t x y : Q) :
  In x (column train f) -> x < t ->
  In y (column train f) -> t <= y ->
  let index := Tree.less_than (column train f) t in
  rows (Tree.select_rows train index) <> [] /\
  rows (Tree.select_rows train (invert index)) <> [] /\
  (nrows (Tree.select_rows train index) < nrows train)%nat /\
  (nrows (Tree.select_rows train (invert index)) < nrows train)%nat.
Proof.
  intros Hx Hxt Hy Hty index.
  destruct (split_mask_rows train f t) as (El & Er). fold index in El, Er.
  unfold nrows. rewrite El, Er.
  pose proof (filter_length (fun r => Qltb (nth f r 0) t) (rows train)) as Hlen.
  apply in_map_iff in Hx as (rx & <- & Hrx).
  apply in_map_iff in Hy as (ry & <- & Hry).
  assert (Hl : In rx (filter (fun r => Qltb (nth f r 0) t) (rows train))).
  { apply filter_In; split; [assumption | apply Qltb_lt; assumption]. }
  assert (Hr : In ry (filter (fun r => negb (Qltb (nth f r 0) t)) (rows train))).
  { apply filter_In; split; [assumption|].
    apply negb_true_iff, Qltb_ge; assumption. }
  destruct (filter (fun r => Qltb (nth f r 0) t) (rows train)) as [|? l1];
    [destruct Hl|].
  destruct (filter (fun r => negb (Qltb (nth f r 0) t)) (rows train))
    as [|? l2]; [destruct Hr|].
  simpl in *. repeat split; try discriminate; lia.
Qed.

(** A threshold returned by [find_best_split] is a candidate of the returned
    feature's column. *)
Lemma find_best_split_candidate (train : matrix) (g h : list Q)
    (reg_lambda : Q) (f : nat) (t gain : Q) :
  find_best_split train g h reg_lambda = Ok (f, Some t, gain) ->
  (f < ncols train)%nat /\ In t (candidates (column train f)) /\ 0 < gain.
Proof.
  intros E. apply find_best_split_invariant in E as (_ & Hcase).
  destruct Hcase as [(_ & Hn & _)|(Hf & Ef & Hpos & _)]; [discriminate|].
  apply find_threshold_result in Ef as (loss & _ & _ & Hcase).
  destruct Hcase as [(Hn & _)|(t' & Et & Hin & _)]; [discriminate|].
  injection Et as <-. auto.
Qed.

(** ** Tree construction *)

Lemma construct_tree_fuel_S (fuel : nat) (self : Tree.t) (train : matrix)
    (g h : list Q) (max_depth : Z) :
  Tree.construct_tree_fuel (S fuel) self train g h max_depth =
  if (max_depth =? 0)%Z
     || (Z.of_nat (nrows train) <? Tree.min_sample_split self)%Z
  then Tree.make_leaf self g h
  else
    '(feature, threshold, gain) <-
       find_best_split train g h (Tree.reg_lambda self) ;;
    if Qle_bool gain (Tree.gamma self) then Tree.make_leaf self g h
    else
      col <- Tree.get_column train feature ;;
      split_threshold <- Tree.as_number threshold ;;
      let index := Tree.less_than col split_threshold in
      g_left <- mask_select g index ;;
      h_left <- mask_select h index ;;
      left_child <-
        Tree.construct_tree_fuel fuel self (Tree.select_rows train index)
          g_left h_left (max_depth - 1) ;;
      g_right <- mask_select g (invert index) ;;
      h_right <- mask_select h (invert index) ;;
      right_child <-
        Tree.construct_tree_fuel fuel self
          (Tree.select_rows train (invert index))
          g_right h_right (max_depth - 1) ;;
      Ok (Internal feature split_threshold left_child right_child).
Proof. reflexivity. Qed.

Lemma stops_early_iff (self : Tree.t) (train : matrix) (max_depth : Z) :
  (max_depth =? 0)%Z || (Z.of_nat (nrows train) <? Tree.min_sample_split self)%Z
    = true
  <-> stops_early self train max_depth.
Proof.
  unfold stops_early. rewrite orb_true_iff, Z.eqb_eq, Z.ltb_lt. reflexivity.
Qed.

(** The shape of every run of [construct_tree_fuel] that returns a node. *)
Lemma construct_tree_fuel_inv (fuel : nat) (self : Tree.t) (train : matrix)
    (g h : list Q) (max_depth : Z) (node : TreeNode) :
  Tree.construct_tree_fuel fuel self train g h max_depth = Ok node ->
  exists fuel',
    fuel = S fuel' /\
    (((stops_early self train max_depth \/
       exists f th gain,
         find_best_split train g h (Tree.reg_lambda self) = Ok (f, th, gain) /\
         gain <= Tree.gamma self) /\
      exists s, leaf_score g h (Tree.reg_lambda self) = Ok s /\ node = Leaf s)
     \/
     (~ stops_early self train max_depth /\
      exists f t gain l r,
        find_best_split train g h (Tree.reg_lambda self) = Ok (f, Some t, gain) /\
        ~ gain <= Tree.gamma self /\
        let index := Tree.less_than (column train f) t in
        Tree.construct_tree_fuel fuel' self (Tree.select_rows train index)
          (compress g index) (compress h index) (max_depth - 1) = Ok l /\
        Tree.construct_tree_fuel fuel' self
          (Tree.select_rows train (invert index))
          (compress g (invert index)) (compress h (invert index))
          (max_depth - 1) = Ok r /\
        node = Internal f t l r)).
Proof.
  destruct fuel as [|fuel]; [discriminate|].
  rewrite construct_tree_fuel_S. intros E. exists fuel; split; [reflexivity|].
  destruct ((max_depth =? 0)%Z
            || (Z.of_nat (nrows train) <? Tree.min_sample_split self)%Z)
    eqn:Hstop.
  - apply stops_early_iff in Hstop. left; split; [auto|].
    apply bind_Ok in E as (s & Es & E). injection E as <-. eauto.
  - assert (Hns : ~ stops_early self train max_depth).
    { rewrite <- stops_early_iff, Hstop; discriminate. }
    apply bind_Ok in E as ([[f th] gain] & Ef & E).
    destruct (Qle_bool gain (Tree.gamma self)) eqn:Hg.
    + apply Qle_bool_iff in Hg. left; split; [right; eauto|].
      apply bind_Ok in E as (s & Es & E). injection E as <-. eauto.
    + right; split; [assumption|].
      apply bind_Ok in E as (col & Ecol & E).
      apply bind_Ok in E as (t & Et & E).
      apply bind_Ok in E as (gl & Egl & E).
      apply bind_Ok in E as (hl & Ehl & E).
      apply bind_Ok in E as (l & El & E).
      apply bind_Ok in E as (gr & Egr & E).
      apply bind_Ok in E as (hr & Ehr & E).
      apply bind_Ok in E as (r & Er & E). injection E as <-.
      destruct th as [t'|]; [injection Et as ->|discriminate].
      unfold Tree.get_column in Ecol.
      destruct (Nat.ltb f (ncols train)); [injection Ecol as <-|discriminate].
      apply mask_select_inv in Egl as (_ & ->).
      apply mask_select_inv in Ehl as (_ & ->).
      apply mask_select_inv in Egr as (_ & ->).
      apply mask_select_inv in Ehr as (_ & ->).
      exists f, t, gain, l, r. repeat split; auto.
      intros Hle; apply Qle_bool_iff in Hle; congruence.
Qed.

(** The split [find_best_split] returns leaves both groups non-empty. *)
Lemma find_best_split_groups (train : matrix) (g h : list Q) (reg_lambda : Q)
    (f : nat) (t gain : Q) :
  find_best_split train g h reg_lambda = Ok (f, Some t, gain) ->
  let col := column train f in
  let index := Tree.less_than col t in
  (exists a b, In a col /\ In b col /\ a < b /\ t = (a + b) / 2) /\
  (exists x, In x col /\ x < t) /\
  (exists y, In y col /\ t <= y) /\
  rows (Tree.select_rows train index) <> [] /\
  rows (Tree.select_rows train (invert index)) <> [] /\
  (nrows (Tree.select_rows train index) < nrows train)%nat /\
  (nrows (Tree.select_rows train (invert index)) < nrows train)%nat.
Proof.
  intros E col index. apply find_best_split_candidate in E as (_ & Hc & _).
  apply candidates_between in Hc as (a & b & Ha & Hb & Hab & Et & Hat & Htb).
  fold col in Ha, Hb.
  destruct (split_groups train f t a b Ha Hat Hb (Qlt_le_weak _ _ Htb))
    as (H1 & H2 & H3 & H4).
  split; [exists a, b; auto|]. split; [exists a; auto|].
  split; [exists b; split; [assumption | apply Qlt_le_weak; assumption]|].
  auto.
Qed.

(** Fuel beyond the number of samples changes nothing. *)
Lemma construct_tree_fuel_more (self : Tree.t) (fuel1 : nat) :
  forall (fuel2 : nat) (train : matrix) (g h : list Q) (max_depth : Z),
    (nrows train < fuel1)%nat -> (nrows train < fuel2)%nat ->
    Tree.construct_tree_fuel fuel1 self train g h max_depth
    = Tree.construct_tree_fuel fuel2 self train g h max_depth.
Proof.
  induction fuel1 as [|fuel1 IH]; intros [|fuel2] train g h d H1 H2; try lia.
  rewrite !construct_tree_fuel_S.
  destruct ((d =? 0)%Z || (Z.of_nat (nrows train) <? Tree.min_sample_split self)%Z);
    [reflexivity|].
  destruct (find_best_split train g h (Tree.reg_lambda self))
    as [[[f th] gain]|e] eqn:Ef; simpl bind; [|reflexivity].
  destruct (Qle_bool gain (Tree.gamma self)); [reflexivity|].
  destruct (Tree.get_column train f) as [col|e] eqn:Ecol; simpl bind;
    [|reflexivity].
  destruct th as [t|]; simpl bind; [|reflexivity].
  unfold Tree.get_column in Ecol.
  destruct (Nat.ltb f (ncols train)); [injection Ecol as <-|discriminate].
  destruct (find_best_split_groups _ _ _ _ _ _ _ Ef)
    as (_ & _ & _ & _ & _ & Hl & Hr).
  destruct (mask_select g _) as [gl|e]; simpl bind; [|reflexivity].
  destruct (mask_select h _) as [hl|e]; simpl bind; [|reflexivity].
  rewrite (IH fuel2) by lia.
  destruct (Tree.construct_tree_fuel fuel2 self _ gl hl (d - 1)) as [l|e];
    simpl bind; [|reflexivity].
  destruct (mask_select g _) as [gr|e]; simpl bind; [|reflexivity].
  destruct (mask_select h _) as [hr|e]; simpl bind; [|reflexivity].
  rewrite (IH fuel2) by lia. reflexivity.
Qed.

(** [construct_tree] satisfies the recursive equation of the source. *)
Lemma construct_tree_eq (self : Tree.t) (train : matrix) (g h : list Q)
    (max_depth : Z) :
  Tree.construct_tree self train g h max_depth =
  if (max_depth =? 0)%Z
     || (Z.of_nat (nrows train) <? Tree.min_sample_split self)%Z
  then (score <- leaf_score g h (Tree.reg_lambda self) ;; Ok (Leaf score))
  else
    '(feature, threshold, gain) <-
       find_best_split train g h (Tree.reg_lambda self) ;;
    if Qle_bool gain (Tree.gamma self)
    then (score <- leaf_score g h (Tree.reg_lambda self) ;; Ok (Leaf score))
    else
      col <- Tree.get_column train feature ;;
      split_threshold <- Tree.as_number threshold ;;
      let index := Tree.less_than col split_threshold in
      g_left <- mask_select g index ;;
      h_left <- mask_select h index ;;
      left_child <-
        Tree.construct_tree self (Tree.select_rows train index)
          g_left h_left (max_depth - 1) ;;
      g_right <- mask_select g (invert index) ;;
      h_right <- mask_select h (invert index) ;;
      right_child <-
        Tree.construct_tree self (Tree.select_rows train (invert index))
          g_right h_right (max_depth - 1) ;;
      Ok (Internal feature split_threshold left_child right_child).
Proof.
  unfold Tree.construct_tree at 1. rewrite construct_tree_fuel_S.
  destruct ((max_depth =? 0)%Z
            || (Z.of_nat (nrows train) <? Tree.min_sample_split self)%Z);
    [reflexivity|].
  destruct (find_best_split train g h (Tree.reg_lambda self))
    as [[[f th] gain]|e] eqn:Ef; simpl bind; [|reflexivity].
  destruct (Qle_bool gain (Tree.gamma self)); [reflexivity|].
  destruct (Tree.get_column train f) as [col|e] eqn:Ecol; simpl bind;
    [|reflexivity].
  destruct th as [t|]; simpl bind; [|reflexivity].
  unfold Tree.get_column in Ecol.
  destruct (Nat.ltb f (ncols train)); [injection Ecol as <-|discriminate].
  destruct (find_best_split_groups _ _ _ _ _ _ _ Ef)
    as (_ & _ & _ & _ & _ & Hl & Hr).
  destruct (mask_select g _) as [gl|e]; simpl bind; [|reflexivity].
  destruct (mask_select h _) as [hl|e]; simpl bind; [|reflexivity].
  unfold Tree.construct_tree.
  rewrite (construct_tree_fuel_more self (nrows train)
             (S (nrows (Tree.select_rows train
                          (Tree.less_than (column train f) t)))))
    by lia.
  destruct (Tree.construct_tree_fuel _ self _ gl hl (max_depth - 1)) as [l|e];
    simpl bind; [|reflexivity].
  destruct (mask_select g _) as [gr|e]; simpl bind; [|reflexivity].
  destruct (mask_select h _) as [hr|e]; simpl bind; [|reflexivity].
  rewrite (construct_tree_fuel_more self (nrows train)
             (S (nrows (Tree.select_rows train
                          (invert (Tree.less_than (column train f) t))))))
    by lia.
  reflexivity.
Qed.

(** *** The fuel is never used up *)

Lemma bind_no_fuel {A B : Type} (r : result A) (k : A -> result B) :
  r <> Err OutOfFuel -> (forall a, r = Ok a -> k a <> Err OutOfFuel) ->
  bind r k <> Err OutOfFuel.
Proof.
  destruct r as [a|e]; simpl; intros Hr Hk; [apply Hk; reflexivity|].
  intros E; apply Hr; congruence.
Qed.

Lemma for_loop_no_fuel {S : Type} (body : nat -> S -> result S) :
  (forall i s, body i s <> Err OutOfFuel) ->
  forall idx s, for_loop idx body s <> Err OutOfFuel.
Proof.
  intros Hbody idx; induction idx as [|i idx IH]; intros s; simpl;
    [discriminate|].
  apply bind_no_fuel; auto.
Qed.

Lemma div_no_fuel (a b : Q) : div a b <> Err OutOfFuel.
Proof. unfold div; destruct (Qeq_bool b 0); discriminate. Qed.

Lemma getitem_no_fuel {A : Type} (l : list A) (i : nat) :
  getitem l i <> Err OutOfFuel.
Proof. unfold getitem; destruct (nth_error l i); discriminate. Qed.

Lemma mask_select_no_fuel {A : Type} (l : list A) (index : list bool) :
  mask_select l index <> Err OutOfFuel.
Proof.
  unfold mask_select; destruct (Nat.eqb (length index) (length l));
    discriminate.
Qed.

Lemma calculate_gain_no_fuel (original_loss : Q) (feature g h : list Q)
    (threshold reg_lambda : Q) :
  calculate_gain original_loss feature g h threshold reg_lambda
    <> Err OutOfFuel.
Proof.
  unfold calculate_gain. apply bind_no_fuel.
  - apply for_loop_no_fuel. intros i [[[lg lh] rg] rh]. unfold gain_body.
    apply bind_no_fuel; [apply getitem_no_fuel|]. intros fi _.
    destruct (Qltb fi threshold);
      (apply bind_no_fuel; [apply getitem_no_fuel|]; intros gi _;
       apply bind_no_fuel; [apply getitem_no_fuel|]; discriminate).
  - intros [[[lg lh] rg] rh] _.
    apply bind_no_fuel; [apply div_no_fuel|]. intros ll _.
    apply bind_no_fuel; [apply div_no_fuel|]. discriminate.
Qed.

Lemma find_threshold_no_fuel (g h train : list Q) (reg_lambda : Q) :
  find_threshold g h train reg_lambda <> Err OutOfFuel.
Proof.
  unfold find_threshold. apply bind_no_fuel; [apply div_no_fuel|].
  intros loss _. apply for_loop_no_fuel. intros i [th best].
  unfold threshold_body.
  apply bind_no_fuel; [apply getitem_no_fuel|]. intros lo _.
  apply bind_no_fuel; [apply getitem_no_fuel|]. intros hi _.
  apply bind_no_fuel; [apply calculate_gain_no_fuel|]. intros gain _.
  destruct (Qltb best gain); discriminate.
Qed.

Lemma find_best_split_no_fuel (train : matrix) (g h : list Q) (reg_lambda : Q) :
  find_best_split train g h reg_lambda <> Err OutOfFuel.
Proof.
  unfold find_best_split. apply for_loop_no_fuel. intros i [[f th] best].
  unfold split_body.
  apply bind_no_fuel; [apply find_threshold_no_fuel|]. intros [thi gi] _.
  destruct (Qltb best gi); discriminate.
Qed.

Lemma make_leaf_no_fuel (self : Tree.t) (g h : list Q) :
  Tree.make_leaf self g h <> Err OutOfFuel.
Proof.
  unfold Tree.make_leaf. apply bind_no_fuel; [apply div_no_fuel|].
  discriminate.
Qed.

(** One unit of fuel per sample, and one more, is enough: the bound on the
    recursion is never what stops [construct_tree]. *)
Lemma construct_tree_fuel_enough (self : Tree.t) (fuel : nat) :
  forall (train : matrix) (g h : list Q) (max_depth : Z),
    (nrows train < fuel)%nat ->
    Tree.construct_tree_fuel fuel self train g h max_depth <> Err OutOfFuel.
Proof.
  induction fuel as [|fuel IH]; intros train g h d Hf; [lia|].
  rewrite construct_tree_fuel_S.
  destruct ((d =? 0)%Z || (Z.of_nat (nrows train) <? Tree.min_sample_split self)%Z);
    [apply make_leaf_no_fuel|].
  apply bind_no_fuel; [apply find_best_split_no_fuel|].
  intros [[f th] gain] Ef.
  destruct (Qle_bool gain (Tree.gamma self)); [apply make_leaf_no_fuel|].
  apply bind_no_fuel.
  { unfold Tree.get_column; destruct (Nat.ltb f (ncols train)); discriminate. }
  intros col Ecol.
  apply bind_no_fuel; [destruct th; discriminate|]. intros t Et.
  destruct th as [t'|]; [injection Et as ->|discriminate].
  unfold Tree.get_column in Ecol.
  destruct (Nat.ltb f (ncols train)); [injection Ecol as <-|discriminate].
  destruct (find_best_split_groups _ _ _ _ _ _ _ Ef)
    as (_ & _ & _ & _ & _ & Hl & Hr).
  cbv zeta.
  apply bind_no_fuel; [apply mask_select_no_fuel|]. intros gl _.
  apply bind_no_fuel; [apply mask_select_no_fuel|]. intros hl _.
  apply bind_no_fuel; [apply IH; lia|]. intros l _.
  apply bind_no_fuel; [apply mask_select_no_fuel|]. intros gr _.
  apply bind_no_fuel; [apply mask_select_no_fuel|]. intros hr _.
  apply bind_no_fuel; [apply IH; lia|]. discriminate.
Qed.

(** *** Well-conditioned inputs yield a tree *)

Lemma construct_tree_fuel_total (self : Tree.t) (fuel : nat) :
  forall (train : matrix) (g h : list Q) (max_depth : Z),
    (nrows train < fuel)%nat ->
    length g = nrows train -> length h = nrows train ->
    nonneg h -> 0 < Tree.reg_lambda self -> 0 <= Tree.gamma self ->
    exists node,
      Tree.construct_tree_fuel fuel self train g h max_depth = Ok node.
Proof.
  induction fuel as [|fuel IH]; intros train g h d Hf Hg Hh Hn Hl Hgam; [lia|].
  rewrite construct_tree_fuel_S.
  assert (Hleaf : exists node, Tree.make_leaf self g h = Ok node).
  { unfold Tree.make_leaf.
    destruct (leaf_score_total g h _ Hn Hl) as (s & ->). simpl; eauto. }
  destruct ((d =? 0)%Z || (Z.of_nat (nrows train) <? Tree.min_sample_split self)%Z);
    [assumption|].
  destruct (find_best_split_total train g h (Tree.reg_lambda self))
    as ([[f th] gain] & Ef).
  { intros i _. apply find_threshold_total; auto;
      rewrite column_length; assumption. }
  rewrite Ef; simpl bind.
  destruct (Qle_bool gain (Tree.gamma self)) eqn:Hgain; [assumption|].
  assert (Hpos : ~ gain <= Tree.gamma self).
  { intros Hle; apply Qle_bool_iff in Hle; congruence. }
  pose proof (find_best_split_invariant _ _ _ _ _ Ef) as (_ & Hcase).
  destruct Hcase as [(_ & _ & ->)|(Hlt & Eth & _)]; [contradiction|].
  destruct th as [t|].
  2:{ apply find_threshold_result in Eth as (loss & _ & _ & Hc).
      destruct Hc as [(_ & E0)|(t & Et & _)]; [|discriminate].
      rewrite E0 in Hpos; contradiction. }
  destruct (find_best_split_groups _ _ _ _ _ _ _ Ef)
    as (_ & _ & _ & _ & _ & Hsl & Hsr).
  unfold Tree.get_column. apply Nat.ltb_lt in Hlt. rewrite Hlt. simpl bind.
  set (index := Tree.less_than (column train f) t) in *.
  assert (Hi : length index = nrows train).
  { unfold index. rewrite less_than_length. apply column_length. }
  rewrite !mask_select_Ok by (rewrite ?invert_length; congruence).
  simpl bind.
  destruct (IH (Tree.select_rows train index) (compress g index)
              (compress h index) (d - 1)%Z) as (l & ->); auto; try lia.
  { apply compress_length_eq; assumption. }
  { apply compress_length_eq; assumption. }
  { apply compress_nonneg; assumption. }
  simpl bind.
  destruct (IH (Tree.select_rows train (invert index))
              (compress g (invert index)) (compress h (invert index))
              (d - 1)%Z) as (r & ->); auto; try lia.
  { apply compress_length_eq; assumption. }
  { apply compress_length_eq; assumption. }
  { apply compress_nonneg; assumption. }
  simpl bind. eauto.
Qed.

Lemma construct_tree_total (self : Tree.t) (train : matrix) (g h : list Q)
    (max_depth : Z) :
  length g = nrows train -> length h = nrows train ->
  nonneg h -> 0 < Tree.reg_lambda self -> 0 <= Tree.gamma self ->
  exists node, Tree.construct_tree self train g h max_depth = Ok node.
Proof. intros; apply construct_tree_fuel_total; auto. Qed.

(** *** Stopping conditions, depth and partitions *)

Lemma leaf_at_depth (node : TreeNode) (k : nat) :
  leaf_at node k -> (k <= depth node)%nat.
Proof. induction 1; simpl; lia. Qed.

Lemma construct_tree_fuel_depth (self : Tree.t) (fuel : nat) :
  forall (train : matrix) (g h : list Q) (max_depth : Z) (node : TreeNode),
    (0 <= max_depth)%Z ->
    Tree.construct_tree_fuel fuel self train g h max_depth = Ok node ->
    (Z.of_nat (depth node) <= max_depth)%Z.
Proof.
  induction fuel as [|fuel IH]; intros train g h d node Hd E; [discriminate|].
  apply construct_tree_fuel_inv in E as (fuel' & Ef & Hcase).
  injection Ef as <-.
  destruct Hcase as [(_ & s & _ & ->)
                    |(Hns & f & t & gain & l & r & _ & _ & El & Er & ->)].
  - simpl; lia.
  - assert (d <> 0)%Z by (intros ->; apply Hns; left; reflexivity).
    apply IH in El; [|lia]. apply IH in Er; [|lia]. simpl depth. lia.
Qed.

Lemma construct_tree_fuel_nondegenerate (self : Tree.t) (fuel : nat) :
  forall (train : matrix) (g h : list Q) (max_depth : Z) (node : TreeNode),
    Tree.construct_tree_fuel fuel self train g h max_depth = Ok node ->
    nondegenerate train node.
Proof.
  induction fuel as [|fuel IH]; intros train g h d node E; [discriminate|].
  apply construct_tree_fuel_inv in E as (fuel' & Ef & Hcase).
  injection Ef as <-.
  destruct Hcase as [(_ & s & _ & ->)
                    |(_ & f & t & gain & l & r & Es & _ & El & Er & ->)].
  - exact I.
  - apply IH in El. apply IH in Er.
    destruct (find_best_split_groups _ _ _ _ _ _ _ Es)
      as (H1 & H2 & H3 & H4 & H5 & _).
    simpl. repeat split; assumption.
Qed.

(** C5: a tree fitted by [Tree.fit] with [max_depth = D >= 0] has depth at
    most [D]: every leaf lies at most [D] edges from the root. *)
Theorem fitted_tree_depth (self fitted : Tree.t) (train : matrix)
    (g h : list Q) :
  (0 <= Tree.max_depth self)%Z ->
  Tree.fit self train g h = Ok fitted ->
  exists root,
    Tree.estimator fitted = Some root /\
    (Z.of_nat (depth root) <= Tree.max_depth self)%Z /\
    forall k, leaf_at root k -> (Z.of_nat k <= Tree.max_depth self)%Z.
Proof.
  intros Hd E. unfold Tree.fit in E. apply bind_Ok in E as (root & Er & E).
  injection E as <-. exists root. split; [reflexivity|].
  apply construct_tree_fuel_depth in Er; [|assumption].
  split; [assumption|]. intros k Hk. apply leaf_at_depth in Hk. lia.
Qed.

Lemma fitted_tree_depth_witness :
  exists root,
    Tree.estimator
      (Tree.Build 1 1 1 0
         (Some (Internal 0 (5 # 2) (Leaf (-36 # 12)) (Leaf (36 # 12)))))
      = Some root /\
    (Z.of_nat (depth root) <= 1)%Z /\
    forall k, leaf_at root k -> (Z.of_nat k <= 1)%Z.
Proof.
  apply (fitted_tree_depth (Tree.Build 1 1 1 0 None) _
           (Matrix 1 [[1]; [2]; [3]; [4]])
           [9 # 2; 9 # 2; -9 # 2; -9 # 2] [1; 1; 1; 1]).
  - discriminate.
  - reflexivity.
Defined.

(** C6: every internal node built by [construct_tree] splits its samples
    into two non-empty groups, its threshold being the midpoint of two distinct
    observed values of the split feature: some sample lies strictly below the
    threshold and some at or above it, and this holds again for the two groups
    the children are built on. *)
Theorem construct_tree_nondegenerate (self : Tree.t) (train : matrix)
    (g h : list Q) (max_depth : Z) (node : TreeNode) :
  Tree.construct_tree self train g h max_depth = Ok node ->
  nondegenerate train node.
Proof. apply construct_tree_fuel_nondegenerate. Qed.

Lemma construct_tree_nondegenerate_witness :
  nondegenerate (Matrix 1 [[1]; [2]; [3]; [4]])
    (Internal 0 (7 # 2)
       (Internal 0 (5 # 2)
          (Internal 0 (3 # 2) (Leaf (-1 # 2)) (Leaf (1 # 2)))
          (Leaf (-10 # 2)))
       (Leaf (10 # 2))).
Proof.
  apply (construct_tree_nondegenerate (Tree.Build (-1) 1 1 0 None)
           (Matrix 1 [[1]; [2]; [3]; [4]]) [1; -1; 10; -10] [1; 1; 1; 1] (-1)).
  reflexivity.
Defined.

(** C4: [construct_tree] returns a leaf scored [leaf_score g h reg_lambda]
    exactly when [max_depth = 0], or there are fewer samples than
    [min_sample_split], or the best gain found by [find_best_split] is at most
    [gamma]; otherwise the node it returns is internal.  The first two
    conditions are decided first: under them the result is the leaf whatever
    the split search would do.  On well-conditioned inputs (non-negative
    hessians, [reg_lambda > 0], [gamma >= 0]) a node is returned. *)
Theorem construct_tree_stopping (self : Tree.t) (train : matrix)
    (g h : list Q) (max_depth : Z) :
  let leaf := (score <- leaf_score g h (Tree.reg_lambda self) ;; Ok (Leaf score)) in
  let small_gain :=
    exists feature threshold gain,
      find_best_split train g h (Tree.reg_lambda self)
        = Ok (feature, threshold, gain) /\
      gain <= Tree.gamma self in
  (stops_early self train max_depth ->
   Tree.construct_tree self train g h max_depth = leaf) /\
  (~ stops_early self train max_depth -> small_gain ->
   Tree.construct_tree self train g h max_depth = leaf) /\
  (forall node,
     Tree.construct_tree self train g h max_depth = Ok node ->
     (is_leaf node = true <->
      stops_early self train max_depth \/ small_gain) /\
     (is_leaf node = true ->
      exists score,
        leaf_score g h (Tree.reg_lambda self) = Ok score /\
        node = Leaf score) /\
     (is_leaf node = false ->
      exists feature threshold left_child right_child,
        node = Internal feature threshold left_child right_child)) /\
  (length g = nrows train -> length h = nrows train ->
   nonneg h -> 0 < Tree.reg_lambda self -> 0 <= Tree.gamma self ->
   exists node, Tree.construct_tree self train g h max_depth = Ok node).
Proof.
  intros leaf small_gain. split; [|split; [|split]].
  - intros Hs. rewrite construct_tree_eq.
    apply stops_early_iff in Hs. rewrite Hs. reflexivity.
  - intros Hns (f & th & gain & Ef & Hle). rewrite construct_tree_eq.
    destruct ((max_depth =? 0)%Z
              || (Z.of_nat (nrows train) <? Tree.min_sample_split self)%Z)
      eqn:Hs; [reflexivity|].
    rewrite Ef; simpl bind. apply Qle_bool_iff in Hle. rewrite Hle.
    reflexivity.
  - intros node E. unfold Tree.construct_tree in E.
    apply construct_tree_fuel_inv in E as (fuel' & _ & Hcase).
    destruct Hcase as [(Hc & s & Es & ->)
                      |(Hns & f & t & gain & l & r & Ef & Hgt & _ & _ & ->)].
    + simpl. split; [tauto|]. split; [eauto | discriminate].
    + simpl. split; [|split; [discriminate | eauto]].
      split; [discriminate|].
      intros [Hs|(f' & th' & gain' & Ef' & Hle)]; [contradiction|].
      rewrite Ef in Ef'; injection Ef' as <- <- <-. contradiction.
  - apply construct_tree_total.
Qed.

Lemma construct_tree_stopping_witness :
  Tree.construct_tree (Tree.Build 3 10 1 0 None)
    (Matrix 1 [[1]; [2]; [3]; [4]]) [1; -1; 10; -10] [1; 1; 1; 1] 3
  = (score <- leaf_score [1; -1; 10; -10] [1; 1; 1; 1] 1 ;; Ok (Leaf score)).
Proof.
  apply (proj1 (construct_tree_stopping (Tree.Build 3 10 1 0 None)
                  (Matrix 1 [[1]; [2]; [3]; [4]])
                  [1; -1; 10; -10] [1; 1; 1; 1] 3)).
  right. reflexivity.
Defined.

(** ** The ensemble *)

Lemma mapM_ext {A B : Type} (f f' : A -> result B) (l : list A) :
  (forall x, In x l -> f x = f' x) -> mapM f l = mapM f' l.
Proof.
  induction l as [|x l IH]; intros H; simpl; [reflexivity|].
  rewrite (H x (or_introl eq_refl)), IH; [reflexivity|].
  intros y Hy; apply H; right; assumption.
Qed.

Lemma mapM_length {A B : Type} (f : A -> result B) (l : list A) (ys : list B) :
  mapM f l = Ok ys -> length ys = length l.
Proof.
  revert ys; induction l as [|x l IH]; intros ys; simpl.
  - intros E; injection E as <-; reflexivity.
  - intros E. apply bind_Ok in E as (y & _ & E).
    apply bind_Ok in E as (ys' & E' & E). injection E as <-.
    simpl; f_equal; auto.
Qed.

Lemma mapM_error {A B : Type} (f : A -> result B) (l : list A) (e0 e : error) :
  (forall x e', f x = Err e' -> e' = e0) -> mapM f l = Err e -> e = e0.
Proof.
  intros Hf; induction l as [|x l IH]; simpl; [discriminate|].
  destruct (f x) as [y|e'] eqn:Ex; simpl.
  - destruct (mapM f l) as [ys|e'']; simpl; [discriminate|].
    intros E; injection E as <-. apply IH; reflexivity.
  - intros E; injection E as <-. eapply Hf; eassumption.
Qed.

Lemma predict_single_error (node : TreeNode) (row : list Q) (e : error) :
  Tree.predict_single node row = Err e -> e = IndexError.
Proof.
  induction node as [s|f t l IHl r IHr]; simpl; [discriminate|].
  unfold getitem. destruct (nth_error row f) as [x|]; simpl.
  - destruct (Qltb x t); auto.
  - intros E; injection E as <-; reflexivity.
Qed.

Lemma ensemble_score_error (learning_rate : Q) (roots : list TreeNode)
    (s : Q) (row : list Q) (e : error) :
  ensemble_score learning_rate roots s row = Err e -> e = IndexError.
Proof.
  unfold ensemble_score.
  destruct (mapM _ roots) as [ps|e'] eqn:E; simpl; [discriminate|].
  intros E'; injection E' as <-.
  apply (mapM_error _ _ _ _ (fun root => predict_single_error root row) E).
Qed.

(** [np.ones(n) * c] is the vector of [n] entries [c]. *)
Lemma ones_times_repeat (n : nat) (c : Q) : ones_times n c = repeat c n.
Proof.
  unfold ones_times. induction n as [|n IH]; simpl; [reflexivity|].
  rewrite IH. f_equal. destruct c as [num den]. unfold Qmult; simpl.
  destruct num; reflexivity.
Qed.

Lemma iadd_Ok (score delta : list Q) :
  length score = length delta ->
  iadd score delta = Ok (map (fun p => fst p + snd p) (combine score delta)).
Proof. intros E; unfold iadd. rewrite E, Nat.eqb_refl. reflexivity. Qed.

(** A fitted tree predicts with its root. *)
Lemma predict_fitted (cfg : Tree.t) (root : TreeNode) (test : matrix) :
  Tree.estimator cfg = Some root ->
  Tree.predict cfg test = mapM (Tree.predict_single root) (rows test).
Proof.
  intros E. unfold Tree.predict, Tree.get_estimator. rewrite E.
  apply mapM_ext. reflexivity.
Qed.

Lemma mapM_combine_snd {A : Type} (l : list A) (s : list Q) :
  length s = length l ->
  mapM (fun rs : A * Q => Ok (snd rs)) (combine l s) = Ok s.
Proof.
  revert s; induction l as [|x l IH]; intros [|y s] E; try discriminate;
    simpl; [reflexivity|].
  injection E as E. rewrite (IH s E). reflexivity.
Qed.

(** Tree by tree or row by row: the two orders of evaluation agree, because
    a prediction can only fail with [IndexError]. *)
Lemma predict_rows_commute (c : Q) (f : list Q -> result Q)
    (G : Q -> list Q -> result Q) (l : list (list Q)) :
  (forall row e, f row = Err e -> e = IndexError) ->
  (forall s row e, G s row = Err e -> e = IndexError) ->
  forall s0 : list Q,
    length s0 = length l ->
    (p <- mapM f l ;;
     score' <- iadd s0 (scale c p) ;;
     mapM (fun rs => G (snd rs) (fst rs)) (combine l score'))
    = mapM (fun rs => p <- f (fst rs) ;; G (snd rs + c * p) (fst rs))
        (combine l s0).
Proof.
  intros Hf HG. induction l as [|row l IH]; intros [|s s0] Hl;
    try discriminate; [reflexivity|].
  injection Hl as Hl. specialize (IH s0 Hl).
  simpl combine. simpl mapM. rewrite <- IH. clear IH.
  destruct (f row) as [p0|e0] eqn:E0; simpl bind; [|reflexivity].
  destruct (mapM f l) as [ps|e1] eqn:E1; simpl bind.
  - pose proof (mapM_length _ _ _ E1) as Hps.
    rewrite !iadd_Ok
      by (unfold scale; simpl; rewrite ?length_map; congruence).
    simpl. destruct (G (s + c * p0) row); reflexivity.
  - apply (mapM_error _ _ IndexError _ Hf) in E1 as ->.
    destruct (G (s + c * p0) row) as [z|e2] eqn:E2; simpl; [reflexivity|].
    apply HG in E2 as ->. reflexivity.
Qed.

Lemma ensemble_score_cons (learning_rate : Q) (root : TreeNode)
    (roots : list TreeNode) (s : Q) (row : list Q) :
  ensemble_score learning_rate (root :: roots) s row
  = (p <- Tree.predict_single root row ;;
     ensemble_score learning_rate roots (s + learning_rate * p) row).
Proof.
  unfold ensemble_score. simpl mapM.
  destruct (Tree.predict_single root row) as [p|e]; simpl bind; [|reflexivity].
  destruct (mapM _ roots) as [ps|e]; reflexivity.
Qed.

Lemma accumulate_rows (learning_rate : Q) (test : matrix)
    (roots : list TreeNode) :
  forall score : list Q,
    length score = nrows test ->
    accumulate learning_rate test roots score
    = mapM (fun rs => ensemble_score learning_rate roots (snd rs) (fst rs))
        (combine (rows test) score).
Proof.
  induction roots as [|root roots IH]; intros score Hl.
  - simpl. symmetry. apply mapM_combine_snd. assumption.
  - simpl accumulate.
    rewrite (mapM_ext _
               (fun rs => p <- Tree.predict_single root (fst rs) ;;
                  ensemble_score learning_rate roots
                    (snd rs + learning_rate * p) (fst rs)))
      by (intros rs _; apply ensemble_score_cons).
    rewrite <- (predict_rows_commute learning_rate
                  (Tree.predict_single root)
                  (ensemble_score learning_rate roots) (rows test)
                  (predict_single_error root)
                  (ensemble_score_error learning_rate roots) score Hl).
    destruct (mapM (Tree.predict_single root) (rows test)) as [p|e] eqn:Ep;
      simpl bind; [|reflexivity].
    pose proof (mapM_length _ _ _ Ep) as Hp.
    rewrite iadd_Ok by (unfold scale; rewrite length_map; unfold nrows in Hl; congruence).
    simpl bind. apply IH.
    rewrite length_map, length_combine. unfold scale; rewrite length_map.
    unfold nrows in *. lia.
Qed.

Lemma mapM_combine_repeat {A B : Type} (F : Q -> A -> result B) (l : list A)
    (c : Q) :
  mapM (fun rs => F (snd rs) (fst rs)) (combine l (repeat c (length l)))
  = mapM (F c) l.
Proof.
  induction l as [|x l IH]; simpl; [reflexivity|]. rewrite IH. reflexivity.
Qed.

(** The index loop of [predict] adds the trees in the order they were
    fitted. *)
Lemma predict_loop_accumulate (self : GBDT.t) (test : matrix)
    (roots : list TreeNode) :
  forall (pre : list Tree.t) (score : list Q),
    GBDT.estimators self
      = Some (pre ++ map (fun root => tree_of self (Some root)) roots) ->
    for_loop (seq (length pre) (length roots)) (GBDT.predict_round self test)
      score
    = accumulate (GBDT.learning_rate self) test roots score.
Proof.
  induction roots as [|root roots IH]; intros pre score Es; [reflexivity|].
  simpl length. simpl seq. simpl for_loop. simpl accumulate.
  unfold GBDT.predict_round at 1. unfold GBDT.get_estimators. rewrite Es.
  simpl bind. simpl map. rewrite getitem_app_r. simpl bind.
  rewrite (predict_fitted _ root) by reflexivity.
  destruct (mapM (Tree.predict_single root) (rows test)) as [p|e]; simpl bind;
    [|reflexivity].
  destruct (iadd score (scale (GBDT.learning_rate self) p)) as [score'|e];
    simpl bind; [|reflexivity].
  specialize (IH (pre ++ [tree_of self (Some root)]) score').
  rewrite length_app in IH. simpl length in IH. rewrite Nat.add_1_r in IH.
  apply IH. rewrite <- app_assoc. exact Es.
Qed.

Lemma boosting_rounds_length (cfg : Tree.t) (learning_rate : Q) (l : Loss.t)
    (train : matrix) (target : list Q) (n : nat) :
  forall (score : list Q) (roots : list TreeNode),
    boosting_rounds cfg learning_rate l train target n score = Ok roots ->
    length roots = n.
Proof.
  induction n as [|n IH]; intros score roots; simpl.
  - intros E; injection E as <-; reflexivity.
  - intros E.
    apply bind_Ok in E as (gv & _ & E). apply bind_Ok in E as (hv & _ & E).
    apply bind_Ok in E as (root & _ & E). apply bind_Ok in E as (p & _ & E).
    apply bind_Ok in E as (score' & _ & E).
    apply bind_Ok in E as (roots' & E' & E). injection E as <-.
    simpl; f_equal; eauto.
Qed.

(** The loop of [fit] performs the boosting rounds and appends their trees. *)
Lemma fit_loop_rounds (self0 : GBDT.t) (l : Loss.t) (train : matrix)
    (target : list Q) (k : nat) :
  GBDT.loss self0 = GBDT.LossObj l ->
  forall (a : nat) (es : list Tree.t) (score : list Q) (st : GBDT.t * list Q),
    for_loop (seq a k) (GBDT.fit_round train target)
      (GBDT.set_estimators self0 es, score) = Ok st ->
    exists roots,
      boosting_rounds (tree_of self0 None) (GBDT.learning_rate self0) l train
        target k score = Ok roots /\
      fst st = GBDT.set_estimators self0
                 (es ++ map (fun root => tree_of self0 (Some root)) roots).
Proof.
  intros Hl. induction k as [|k IH]; intros a es score st; simpl.
  - intros E; injection E as <-. exists []; simpl. rewrite app_nil_r. auto.
  - intros E. apply bind_Ok in E as ([self1 score1] & E1 & E).
    unfold GBDT.fit_round in E1. unfold GBDT.loss_methods in E1.
    simpl in E1. rewrite Hl in E1. simpl in E1.
    apply bind_Ok in E1 as (gv & Egv & E1). rewrite Egv. simpl bind.
    apply bind_Ok in E1 as (hv & Ehv & E1). rewrite Ehv. simpl bind.
    apply bind_Ok in E1 as (tree & Et & E1).
    unfold Tree.fit in Et. apply bind_Ok in Et as (root & Er & Et).
    simpl in Er, Et. injection Et as <-.
    change (Tree.max_depth (tree_of self0 None)) with (GBDT.max_depth self0).
    unfold tree_of at 1. rewrite Er. simpl bind.
    rewrite (predict_fitted _ root) in E1 by reflexivity.
    apply bind_Ok in E1 as (p & Ep & E1). rewrite Ep. simpl bind.
    apply bind_Ok in E1 as (score' & Es & E1). rewrite Es. simpl bind.
    injection E1 as <- <-.
    apply (IH (S a) (es ++ [tree_of self0 (Some root)])) in E
      as (roots & Er' & Est).
    rewrite Er'. simpl bind. exists (root :: roots). split; [reflexivity|].
    rewrite Est. simpl map. rewrite <- app_assoc. reflexivity.
Qed.

Lemma fold_left_scaled_sum (c : Q) (ps : list Q) :
  forall s, fold_left (fun acc p => acc + c * p) ps s
            == s + sum (map (Qmult c) ps).
Proof.
  induction ps as [|p ps IH]; intros s; simpl; [lra|]. rewrite IH. lra.
Qed.

Lemma fit_unfold (self : GBDT.t) (train : matrix) (target : list Q) :
  GBDT.fit self train target =
  (m <- mean target ;;
   st <- for_loop (range 0 (Z.to_nat (GBDT.n_estimators self)))
           (GBDT.fit_round train target)
           (GBDT.set_estimators (fit_start self m) [], repeat m (nrows train)) ;;
   Ok (fst st)).
Proof.
  unfold GBDT.fit, fit_start.
  destruct (mean target) as [m|e]; simpl bind; [|reflexivity].
  rewrite ones_times_repeat.
  destruct (GBDT.is_mse (GBDT.loss self)) eqn:Em; simpl;
    rewrite ?Em;
    match goal with
    | |- bind ?x _ = bind ?y _ =>
        change x with y; destruct y as [[? ?]|?]; reflexivity
    end.
Qed.

(** What [fit] leaves behind, for a configured loss that is a name or an
    instance. *)
Lemma fit_result (self fitted : GBDT.t) (train : matrix) (target : list Q) :
  (1 <= GBDT.n_estimators self)%Z ->
  GBDT.fit self train target = Ok fitted ->
  exists l score_start roots,
    ((GBDT.loss self = GBDT.LossName "mse" /\ l = Loss.mse) \/
     GBDT.loss self = GBDT.LossObj l) /\
    mean target = Ok score_start /\
    boosting_rounds (tree_of self None) (GBDT.learning_rate self) l train
      target (Z.to_nat (GBDT.n_estimators self))
      (repeat score_start (nrows train)) = Ok roots /\
    fitted = GBDT.Build (GBDT.LossObj l) (GBDT.max_depth self)
               (GBDT.min_sample_split self) (GBDT.reg_lambda self)
               (GBDT.gamma self) (GBDT.learning_rate self)
               (GBDT.n_estimators self)
               (Some (map (fun root => tree_of self (Some root)) roots))
               (Some score_start).
Proof.
  intros Hn E. rewrite fit_unfold in E.
  apply bind_Ok in E as (m & Em & E).
  apply bind_Ok in E as (st & Eloop & E). injection E as <-.
  unfold range in Eloop. rewrite Nat.sub_0_r in Eloop.
  assert (Hl : exists l,
             GBDT.loss (fit_start self m) = GBDT.LossObj l /\
             ((GBDT.loss self = GBDT.LossName "mse" /\ l = Loss.mse) \/
              GBDT.loss self = GBDT.LossObj l)).
  { unfold fit_start; simpl.
    destruct (GBDT.loss self) as [name|l] eqn:El; simpl.
    - destruct (String.eqb name "mse") eqn:Ename.
      + apply String.eqb_eq in Ename as ->. exists Loss.mse; auto.
      + exfalso.
        destruct (Z.to_nat (GBDT.n_estimators self)) as [|k] eqn:Ek; [lia|].
        simpl in Eloop. unfold GBDT.loss_methods, fit_start in Eloop.
        simpl in Eloop. rewrite El in Eloop. simpl in Eloop.
        rewrite Ename in Eloop. discriminate.
    - exists l; auto. }
  destruct Hl as (l & Els & Hl).
  destruct (fit_loop_rounds (fit_start self m) l train target _ Els _ _ _ _
              Eloop) as (roots & Er & Ef).
  exists l, m, roots. split; [assumption|]. split; [assumption|].
  split; [exact Er|]. rewrite Ef. unfold GBDT.set_estimators.
  rewrite Els. reflexivity.
Qed.

(** C3: after [fit self train target] with at least one estimator, the
    fitted ensemble holds [n_estimators] trees, the tree of round [i] fitted on
    the gradient and hessian of the score accumulated from the mean of the
    targets and the trees of the rounds before ([boosting_rounds]); and
    [predict] on any samples is the link of the loss applied to the vector
    that holds, for each row in input order, the mean of the targets plus the
    sum over the trees of [learning_rate] times the tree's prediction for
    the row. *)
Theorem gbdt_fit_predict (self fitted : GBDT.t) (train : matrix)
    (target : list Q) :
  (1 <= GBDT.n_estimators self)%Z ->
  GBDT.fit self train target = Ok fitted ->
  exists l score_start roots,
    ((GBDT.loss self = GBDT.LossName "mse" /\ l = Loss.mse) \/
     GBDT.loss self = GBDT.LossObj l) /\
    mean target = Ok score_start /\
    boosting_rounds (tree_of self None) (GBDT.learning_rate self) l train
      target (Z.to_nat (GBDT.n_estimators self))
      (repeat score_start (nrows train)) = Ok roots /\
    length roots = Z.to_nat (GBDT.n_estimators self) /\
    GBDT.estimators fitted
      = Some (map (fun root => tree_of self (Some root)) roots) /\
    forall test : matrix,
      GBDT.predict fitted test
      = (scores <-
           mapM (ensemble_score (GBDT.learning_rate self) roots score_start)
             (rows test) ;;
         Loss.link l scores) /\
      (forall scores,
         mapM (ensemble_score (GBDT.learning_rate self) roots score_start)
           (rows test) = Ok scores ->
         length scores = nrows test) /\
      (forall row ps,
         mapM (fun root => Tree.predict_single root row) roots = Ok ps ->
         exists s,
           ensemble_score (GBDT.learning_rate self) roots score_start row
             = Ok s /\
           s == score_start
                + sum (map (Qmult (GBDT.learning_rate self)) ps)).
Proof.
  intros Hn E.
  destruct (fit_result self fitted train target Hn E)
    as (l & m & roots & Hl & Em & Er & ->).
  pose proof (boosting_rounds_length _ _ _ _ _ _ _ _ Er) as Hlen.
  exists l, m, roots. repeat split; auto.
  - unfold GBDT.predict, GBDT.get_score_start, GBDT.loss_methods. simpl.
    unfold range. rewrite Nat.sub_0_r, <- Hlen.
    match goal with
    | |- context [for_loop _ (GBDT.predict_round ?s test) _] =>
        rewrite (predict_loop_accumulate s test roots [])
          by (simpl; f_equal; apply map_ext; reflexivity)
    end.
    simpl GBDT.learning_rate.
    rewrite accumulate_rows
      by (rewrite ones_times_repeat; apply repeat_length).
    rewrite ones_times_repeat. unfold nrows.
    rewrite (mapM_combine_repeat
               (ensemble_score (GBDT.learning_rate self) roots)).
    reflexivity.
  - intros scores Es. apply mapM_length in Es. exact Es.
  - intros row ps Eps. unfold ensemble_score. rewrite Eps. simpl.
    eexists; split; [reflexivity|]. apply fold_left_scaled_sum.
Qed.

Lemma gbdt_fit_predict_witness :
  exists l score_start roots,
    ((GBDT.loss example_gbdt = GBDT.LossName "mse" /\ l = Loss.mse) \/
     GBDT.loss example_gbdt = GBDT.LossObj l) /\
    mean example_target = Ok score_start /\
    boosting_rounds (tree_of example_gbdt None)
      (GBDT.learning_rate example_gbdt) l example_train example_target
      (Z.to_nat (GBDT.n_estimators example_gbdt))
      (repeat score_start (nrows example_train)) = Ok roots /\
    length roots = Z.to_nat (GBDT.n_estimators example_gbdt) /\
    GBDT.estimators example_fitted
      = Some (map (fun root => tree_of example_gbdt (Some root)) roots) /\
    forall test : matrix,
      GBDT.predict example_fitted test
      = (scores <-
           mapM
             (ensemble_score (GBDT.learning_rate example_gbdt) roots
                score_start)
             (rows test) ;;
         Loss.link l scores) /\
      (forall scores,
         mapM
           (ensemble_score (GBDT.learning_rate example_gbdt) roots
              score_start)
           (rows test) = Ok scores ->
         length scores = nrows test) /\
      (forall row ps,
         mapM (fun root => Tree.predict_single root row) roots = Ok ps ->
         exists s,
           ensemble_score (GBDT.learning_rate example_gbdt) roots
             score_start row = Ok s /\
           s == score_start
                + sum (map (Qmult (GBDT.learning_rate example_gbdt)) ps)).
Proof.
  apply (gbdt_fit_predict example_gbdt example_fitted example_train
           example_target).
  - discriminate.
  - reflexivity.
Defined.

(** A loss given by any name other than ['mse'] is left as the string it is,
    and the first boosting round fails on looking up its [g]. *)
Lemma fit_other_name_raises (self : GBDT.t) (name : string) (train : matrix)
    (target : list Q) (m : Q) :
  GBDT.loss self = GBDT.LossName name -> name <> "mse"%string ->
  (1 <= GBDT.n_estimators self)%Z -> mean target = Ok m ->
  GBDT.fit self train target = Err AttributeError.
Proof.
  intros El Hname Hn Em. rewrite fit_unfold, Em. simpl bind.
  unfold range. rewrite Nat.sub_0_r.
  destruct (Z.to_nat (GBDT.n_estimators self)) as [|k] eqn:Ek; [lia|].
  simpl. unfold GBDT.loss_methods, fit_start. simpl. rewrite El. simpl.
  apply String.eqb_neq in Hname. rewrite Hname. reflexivity.
Qed.

(** C2: constructing a GBDT with [loss = "log"] and fitting it should select
    the logistic loss [Loss.log] as ["mse"] selects [Loss.mse].  The code has
    no such case: [fit] on the default configuration with [loss = "log"]
    raises [AttributeError] in its first round, while the same call with
    [loss = "mse"] resolves the name to [Loss.mse]. *)
Theorem fit_loss_log_raises :
  GBDT.fit (GBDT.init (GBDT.LossName "log")) example_train [0; 0; 1; 1]
    = Err AttributeError /\
  GBDT.is_mse (GBDT.LossName "log") = false /\
  GBDT.loss (fit_start (GBDT.init (GBDT.LossName "log")) (1 # 2))
    = GBDT.LossName "log" /\
  GBDT.loss (fit_start (GBDT.init (GBDT.LossName "mse")) (1 # 2))
    = GBDT.LossObj Loss.mse.
Proof.
  split; [|repeat split].
  apply (fit_other_name_raises _ "log" _ _ (2 # 4)); try reflexivity;
    discriminate.
Qed.

(** * Further properties of the code *)

(** ** Leaves: the Newton step *)

Lemma Qeq_bool_zero_proper (b b' : Q) :
  b == b' -> Qeq_bool b 0 = Qeq_bool b' 0.
Proof.
  intros E. destruct (Qeq_bool b' 0) eqn:E'.
  - apply Qeq_bool_iff. apply Qeq_bool_iff in E'. rewrite E; assumption.
  - destruct (Qeq_bool b 0) eqn:E''; [|reflexivity].
    apply Qeq_bool_iff in E''. rewrite E in E''.
    apply Qeq_bool_iff in E''. congruence.
Qed.

(** X1: where the regularised hessian sum is positive, [leaf_score] is the
    minimiser and [leaf_loss] the minimum of the quadratic objective
    [G * w + (H + reg_lambda) * w^2 / 2] of a leaf with gradient sum [G] and
    hessian sum [H]. *)
Theorem leaf_score_minimises (g h : list Q) (reg_lambda : Q) :
  0 < sum h + reg_lambda ->
  exists score loss,
    leaf_score g h reg_lambda = Ok score /\
    leaf_loss g h reg_lambda = Ok loss /\
    loss == sum g * score + (1 # 2) * (sum h + reg_lambda) * (score * score) /\
    forall w, loss <= sum g * w + (1 # 2) * (sum h + reg_lambda) * (w * w).
Proof.
  intros Hd. unfold leaf_score, leaf_loss, square.
  rewrite !div_Ok by (intro; lra).
  do 2 eexists. split; [reflexivity|]. split; [reflexivity|].
  set (G := sum g). set (D := sum h + reg_lambda) in *. split.
  - field. intro; lra.
  - intros w.
    assert (E : G * w + (1 # 2) * D * (w * w) - (-1 # 2) * (G * G) / D
                == (1 # 2) * / D * square (D * w + G)).
    { unfold square. field. intro; lra. }
    assert (0 <= (1 # 2) * / D * square (D * w + G)).
    { apply Qmult_le_0_compat; [|apply square_nonneg].
      apply Qmult_le_0_compat; [lra|].
      apply Qinv_le_0_compat; lra. }
    lra.
Qed.

Lemma leaf_score_minimises_witness :
  exists score loss,
    leaf_score [1; 2] [1; 1] 1 = Ok score /\
    leaf_loss [1; 2] [1; 1] 1 = Ok loss /\
    loss == sum [1; 2] * score
            + (1 # 2) * (sum [1; 1] + 1) * (score * score) /\
    forall w, loss <= sum [1; 2] * w + (1 # 2) * (sum [1; 1] + 1) * (w * w).
Proof. apply (leaf_score_minimises [1; 2] [1; 1] 1). reflexivity. Defined.

(** X2: where the regularised hessian sum is positive, [leaf_loss] is never
    positive, it is half the gradient sum times [leaf_score], and the score has
    the sign opposite to the gradient sum. *)
Theorem leaf_loss_nonpos (g h : list Q) (reg_lambda score loss : Q) :
  0 < sum h + reg_lambda ->
  leaf_score g h reg_lambda = Ok score ->
  leaf_loss g h reg_lambda = Ok loss ->
  loss <= 0 /\
  loss == (1 # 2) * sum g * score /\
  (0 < sum g -> score < 0) /\
  (sum g < 0 -> 0 < score) /\
  (sum g == 0 -> score == 0 /\ loss == 0).
Proof.
  intros Hd Es El.
  apply div_inv in Es as (_ & ->). apply div_inv in El as (_ & ->).
  set (G := sum g) in *. set (D := sum h + reg_lambda) in *.
  assert (Hi : 0 < / D) by (apply Qinv_lt_0_compat; assumption).
  unfold Qdiv, square. split; [|split; [|split; [|split]]].
  - pose proof (square_nonneg G) as Hs. unfold square in Hs.
    assert (0 <= G * G * / D) by (apply Qmult_le_0_compat; lra).
    lra.
  - ring.
  - intros HG. assert (0 < G * / D) by (apply Qmult_pos; assumption). lra.
  - intros HG. assert (0 < (- G) * / D) by (apply Qmult_pos; lra). lra.
  - intros HG. rewrite HG. split; ring.
Qed.

Lemma leaf_loss_nonpos_witness :
  (-9 # 6) <= 0 /\
  (-9 # 6) == (1 # 2) * sum [1; 2] * (-3 # 3) /\
  (0 < sum [1; 2] -> (-3 # 3) < 0) /\
  (sum [1; 2] < 0 -> 0 < (-3 # 3)) /\
  (sum [1; 2] == 0 -> (-3 # 3) == 0 /\ (-9 # 6) == 0).
Proof.
  apply (leaf_loss_nonpos [1; 2] [1; 1] 1 (-3 # 3) (-9 # 6)); reflexivity.
Defined.

(** ** The gain of a split *)

Lemma leaf_loss_proper (g h : list Q) (reg_lambda G H : Q) :
  G == sum g -> H == sum h ->
  (forall l, leaf_loss g h reg_lambda = Ok l ->
     exists l', div ((-1 # 2) * square G) (H + reg_lambda) = Ok l' /\ l' == l)
  /\
  (forall e, leaf_loss g h reg_lambda = Err e ->
     div ((-1 # 2) * square G) (H + reg_lambda) = Err ZeroDivisionError).
Proof.
  intros EG EH. unfold leaf_loss. split.
  - intros l El. apply div_inv in El as (Hd & ->).
    rewrite div_Ok by (rewrite EH; assumption).
    eexists; split; [reflexivity|]. unfold square. rewrite EG, EH. reflexivity.
  - intros e El. apply div_Err. unfold div in El.
    destruct (Qeq_bool (sum h + reg_lambda) 0) eqn:E; [|discriminate].
    apply Qeq_bool_iff in E. rewrite EH. assumption.
Qed.

(** X3: with [g] and [h] as long as the feature column, the gain of a
    threshold is the original loss minus the [leaf_loss] of the samples below
    the threshold and the [leaf_loss] of the samples at or above it, the two
    groups [construct_tree] hands to the children; it raises
    [ZeroDivisionError] exactly when one of these two losses does. *)
Theorem calculate_gain_children (original_loss : Q) (feature g h : list Q)
    (threshold reg_lambda : Q) :
  length g = length feature -> length h = length feature ->
  let index := Tree.less_than feature threshold in
  let left := leaf_loss (compress g index) (compress h index) reg_lambda in
  let right :=
    leaf_loss (compress g (invert index)) (compress h (invert index))
      reg_lambda in
  (forall left_loss right_loss,
     left = Ok left_loss -> right = Ok right_loss ->
     exists gain,
       calculate_gain original_loss feature g h threshold reg_lambda
         = Ok gain /\
       gain == original_loss - left_loss - right_loss) /\
  ((exists e, left = Err e) \/ (exists e, right = Err e) ->
   calculate_gain original_loss feature g h threshold reg_lambda
     = Err ZeroDivisionError).
Proof.
  intros Hg Hh index left right.
  destruct (gain_loop_sums threshold feature [] [] [] g h 0 0 0 0
              eq_refl eq_refl Hg Hh)
    as (lg & lh & rg & rh & E & A & B & C & D).
  fold index in A, B, C, D. rewrite Qplus_0_l in A, B, C, D.
  simpl app in E. simpl length in E.
  destruct (leaf_loss_proper (compress g index) (compress h index) reg_lambda
              lg lh A B) as (Lok & Lerr).
  destruct (leaf_loss_proper (compress g (invert index))
              (compress h (invert index)) reg_lambda rg rh C D)
    as (Rok & Rerr).
  fold left in Lok, Lerr. fold right in Rok, Rerr.
  unfold calculate_gain, range. rewrite Nat.sub_0_r, E. simpl bind. split.
  - intros ll rl El Er.
    destruct (Lok ll El) as (ll' & -> & Ell).
    destruct (Rok rl Er) as (rl' & -> & Erl). simpl bind.
    eexists; split; [reflexivity|]. rewrite Ell, Erl. reflexivity.
  - intros [(e & El)|(e & Er)].
    + rewrite (Lerr e El). reflexivity.
    + rewrite (Rerr e Er).
      destruct (div ((-1 # 2) * square lg) (lh + reg_lambda)) as [ll|e'] eqn:Ed;
        [reflexivity|].
      unfold div in Ed. destruct (Qeq_bool (lh + reg_lambda) 0);
        [injection Ed as <-; reflexivity | discriminate].
Qed.

Lemma calculate_gain_children_witness :
  exists gain,
    calculate_gain (-4 # 6) [1; 2] [1; 1] [1; 1] (3 # 2) 1 = Ok gain /\
    gain == (-4 # 6) - (-1 # 4) - (-1 # 4).
Proof.
  apply (proj1 (calculate_gain_children (-4 # 6) [1; 2] [1; 1] [1; 1]
                  (3 # 2) 1 eq_refl eq_refl) (-1 # 4) (-1 # 4));
    reflexivity.
Defined.

Lemma for_loop_ext {S : Type} (body body' : nat -> S -> result S)
    (idx : list nat) :
  (forall i s, In i idx -> body i s = body' i s) ->
  forall s, for_loop idx body s = for_loop idx body' s.
Proof.
  induction idx as [|i idx IH]; intros H s; simpl; [reflexivity|].
  rewrite (H i s (or_introl eq_refl)).
  destruct (body' i s) as [s'|e]; simpl; [|reflexivity].
  apply IH. intros j s0 Hj; apply H; right; assumption.
Qed.

Lemma getitem_lt {A : Type} (l : list A) (i : nat) :
  (i < length l)%nat -> exists x, getitem l i = Ok x.
Proof.
  intros Hi. unfold getitem. destruct (nth_error l i) as [x|] eqn:E; [eauto|].
  apply nth_error_None in E. lia.
Qed.




(** X5: [calculate_gain] reads [g] and [h] only at the indices of the feature
    column: entries beyond its length change nothing. *)
Theorem calculate_gain_ignores_tail (original_loss : Q)
    (feature g h g' h' : list Q) (threshold reg_lambda : Q) :
  length g = length feature -> length h = length feature ->
  calculate_gain original_loss feature (g ++ g') (h ++ h') threshold
    reg_lambda
  = calculate_gain original_loss feature g h threshold reg_lambda.
Proof.
  intros Hg Hh. unfold calculate_gain.
  rewrite (for_loop_ext (gain_body feature (g ++ g') (h ++ h') threshold)
             (gain_body feature g h threshold)); [reflexivity|].
  intros i [[[lg lh] rg] rh] Hi. apply in_seq in Hi. unfold gain_body, getitem.
  rewrite !nth_error_app1 by lia. reflexivity.
Qed.

Lemma calculate_gain_ignores_tail_witness :
  calculate_gain 0 [1; 2] ([1; 1] ++ [5]) ([1; 1] ++ [7; 8]) (3 # 2) 1
  = calculate_gain 0 [1; 2] [1; 1] [1; 1] (3 # 2) 1.
Proof.
  apply (calculate_gain_ignores_tail 0 [1; 2] [1; 1] [1; 1] [5] [7; 8]);
    reflexivity.
Defined.

(** ** Threshold search: columns and gradients that offer no split *)

Lemma constant_column_no_candidate (train : list Q) :
  (forall x y, In x train -> In y train -> x == y) -> candidates train = [].
Proof.
  intros Hc. unfold candidates.
  destruct (unique_spec train) as (Hs & Hin & _).
  destruct (unique train) as [|a [|b v]]; try reflexivity.
  exfalso. inversion Hs as [|? ? _ Ha]; subst.
  inversion Ha as [|? ? Hab _]; subst.
  assert (a == b) by (apply Hc; apply Hin; simpl; auto).
  lra.
Qed.

(** X6: on a feature column whose values are all equal (an empty column
    included), [find_threshold] evaluates no candidate: it returns
    [(None, 0)] whenever the loss of the unsplit leaf is defined, whatever the
    lengths of [g] and [h], and raises what [leaf_loss] raises otherwise. *)
Theorem find_threshold_constant_column (g h train : list Q) (reg_lambda : Q) :
  (forall x y, In x train -> In y train -> x == y) ->
  find_threshold g h train reg_lambda
  = (loss <- leaf_loss g h reg_lambda ;; Ok (None, 0)).
Proof.
  intros Hc. rewrite find_threshold_scan.
  rewrite (constant_column_no_candidate train Hc). reflexivity.
Qed.

Lemma find_threshold_constant_column_witness :
  find_threshold [1; -2; 3] [1; 1; 1] [5; 10 # 2; 5] 1
  = (loss <- leaf_loss [1; -2; 3] [1; 1; 1] 1 ;; Ok (None, 0)).
Proof.
  apply (find_threshold_constant_column [1; -2; 3] [1; 1; 1] [5; 10 # 2; 5] 1).
  intros x y [<-|[<-|[<-|[]]]] [<-|[<-|[<-|[]]]]; reflexivity.
Defined.

Lemma sum_zero (g : list Q) : Forall (fun x => x == 0) g -> sum g == 0.
Proof.
  induction 1 as [|x g Hx _ IH]; simpl; [reflexivity|].
  rewrite Hx, IH. reflexivity.
Qed.

Lemma compress_Forall {A : Type} (P : A -> Prop) (l : list A)
    (index : list bool) :
  Forall P l -> Forall P (compress l index).
Proof.
  intros H; revert index; induction H as [|x l Hx Hl IH]; intros [|[] index];
    simpl; try constructor; auto.
Qed.

(** With all gradients zero no threshold has a positive gain. *)
Lemma find_threshold_zero_gradient (g h train : list Q) (reg_lambda : Q) :
  Forall (fun x => x == 0) g ->
  length g = length train -> length h = length train ->
  nonneg h -> 0 < reg_lambda ->
  find_threshold g h train reg_lambda = Ok (None, 0).
Proof.
  intros Hz Hg Hh Hn Hl.
  destruct (find_threshold_total g h train reg_lambda Hg Hh Hn Hl)
    as ([th best] & E).
  rewrite E. pose proof (find_threshold_result _ _ _ _ _ _ E)
    as (loss & El & _ & Hcase).
  destruct Hcase as [(-> & ->)|(t & _ & _ & Et & Hpos & _)]; [reflexivity|].
  exfalso.
  set (index := Tree.less_than train t).
  pose proof (sum_nonneg _ (compress_nonneg h index Hn)) as Hp.
  pose proof (sum_nonneg _ (compress_nonneg h (invert index) Hn)) as Hq.
  destruct (calculate_gain_closed loss train g h t reg_lambda Hg Hh)
    as (gain & Eg & V); fold index; try (intro; lra).
  rewrite Et in Eg; injection Eg as <-. fold index in V.
  apply div_inv in El as (_ & ->). unfold square in V.
  rewrite (sum_zero _ (compress_Forall _ g index Hz)) in V.
  rewrite (sum_zero _ (compress_Forall _ g (invert index) Hz)) in V.
  rewrite (sum_zero g Hz) in V. unfold Qdiv in V.
  assert (best == 0) by (rewrite V; ring). lra.
Qed.

(** X7: on gradients that are all zero, with non-negative hessians,
    [reg_lambda > 0] and [gamma >= 0], [construct_tree] finds no split worth
    making and returns a single leaf, of score zero. *)
Theorem construct_tree_zero_gradient (self : Tree.t) (train : matrix)
    (g h : list Q) (max_depth : Z) :
  Forall (fun x => x == 0) g ->
  length g = nrows train -> length h = nrows train ->
  nonneg h -> 0 < Tree.reg_lambda self -> 0 <= Tree.gamma self ->
  exists score,
    Tree.construct_tree self train g h max_depth = Ok (Leaf score) /\
    score == 0.
Proof.
  intros Hz Hg Hh Hn Hl Hgam.
  assert (Hleaf : exists score,
            leaf_score g h (Tree.reg_lambda self) = Ok score /\ score == 0).
  { pose proof (sum_nonneg h Hn). unfold leaf_score.
    rewrite div_Ok by (intro; lra). eexists; split; [reflexivity|].
    rewrite (sum_zero g Hz). unfold Qdiv. ring. }
  destruct Hleaf as (score & Es & E0). exists score; split; [|assumption].
  rewrite construct_tree_eq.
  destruct ((max_depth =? 0)%Z
            || (Z.of_nat (nrows train) <? Tree.min_sample_split self)%Z);
    [rewrite Es; reflexivity|].
  destruct (find_best_split_total train g h (Tree.reg_lambda self))
    as ([[f th] gain] & Ef).
  { intros i _. rewrite find_threshold_zero_gradient; eauto;
      rewrite column_length; assumption. }
  rewrite Ef; simpl bind.
  pose proof (find_best_split_invariant _ _ _ _ _ Ef) as (_ & Hcase).
  destruct Hcase as [(_ & _ & ->)|(_ & Eth & Hpos & _)].
  - apply Qle_bool_iff in Hgam. rewrite Hgam, Es. reflexivity.
  - rewrite find_threshold_zero_gradient in Eth;
      try (rewrite column_length); auto.
    injection Eth as _ <-. lra.
Qed.

Lemma construct_tree_zero_gradient_witness :
  exists score,
    Tree.construct_tree (Tree.Build 3 1 1 0 None)
      (Matrix 1 [[1]; [2]; [3]]) [0; 0; 0] [1; 1; 1] 3 = Ok (Leaf score) /\
    score == 0.
Proof.
  apply (construct_tree_zero_gradient (Tree.Build 3 1 1 0 None)
           (Matrix 1 [[1]; [2]; [3]]) [0; 0; 0] [1; 1; 1] 3);
    try reflexivity; try discriminate;
    repeat constructor; try reflexivity; discriminate.
Defined.

(** ** Fitted trees *)

Lemma construct_tree_fuel_features (self : Tree.t) (fuel : nat) :
  forall (train : matrix) (g h : list Q) (max_depth : Z) (node : TreeNode),
    Tree.construct_tree_fuel fuel self train g h max_depth = Ok node ->
    features_below (ncols train) node.
Proof.
  induction fuel as [|fuel IH]; intros train g h d node E; [discriminate|].
  apply construct_tree_fuel_inv in E as (fuel' & Ef & Hcase).
  injection Ef as <-.
  destruct Hcase as [(_ & s & _ & ->)
                    |(_ & f & t & gain & l & r & Es & _ & El & Er & ->)].
  - exact I.
  - apply IH in El. apply IH in Er.
    apply find_best_split_candidate in Es as (Hf & _). simpl. auto.
Qed.

Lemma predict_single_total (n : nat) (node : TreeNode) (row : list Q) :
  features_below n node -> (n <= length row)%nat ->
  exists s, Tree.predict_single node row = Ok s.
Proof.
  intros Hb Hn. induction node as [s|f t l IHl r IHr]; simpl; [eauto|].
  destruct Hb as (Hf & Hl & Hr).
  destruct (getitem_lt row f ltac:(lia)) as (x & ->). simpl.
  destruct (Qltb x t); auto.
Qed.

Lemma mapM_total {A B : Type} (f : A -> result B) (l : list A) :
  (forall x, In x l -> exists y, f x = Ok y) ->
  exists ys, mapM f l = Ok ys /\ length ys = length l.
Proof.
  induction l as [|x l IH]; intros H; simpl; [exists []; auto|].
  destruct (H x (or_introl eq_refl)) as (y & ->).
  destruct IH as (ys & -> & Hl); [intros; apply H; right; assumption|].
  simpl. exists (y :: ys); simpl; auto.
Qed.

(** X8: a tree fitted on a matrix of [ncols] columns only tests features below
    [ncols], so it predicts every sample that has at least [ncols] features:
    [predict] on such samples never raises and returns one score per row. *)
Theorem tree_fit_predict_total (self fitted : Tree.t) (train test : matrix)
    (g h : list Q) :
  Tree.fit self train g h = Ok fitted ->
  Forall (fun row => (ncols train <= length row)%nat) (rows test) ->
  exists root scores,
    Tree.estimator fitted = Some root /\
    features_below (ncols train) root /\
    Tree.predict fitted test = Ok scores /\
    length scores = nrows test /\
    forall i row,
      nth_error (rows test) i = Some row ->
      exists s,
        nth_error scores i = Some s /\ Tree.predict_single root row = Ok s.
Proof.
  intros E Hrows. unfold Tree.fit in E. apply bind_Ok in E as (root & Er & E).
  injection E as <-. apply construct_tree_fuel_features in Er.
  rewrite Forall_forall in Hrows.
  destruct (mapM_total (Tree.predict_single root) (rows test))
    as (scores & Es & Hlen).
  { intros row Hrow. apply (predict_single_total (ncols train)); auto. }
  exists root, scores. rewrite (predict_fitted _ root) by reflexivity.
  repeat split; auto.
  clear - Es. revert scores Es.
  induction (rows test) as [|r0 rs IH]; intros scores Es i row Hi.
  - destruct i; discriminate.
  - simpl in Es. apply bind_Ok in Es as (s0 & E0 & Es).
    apply bind_Ok in Es as (ss & Ess & Es). injection Es as <-.
    destruct i as [|i]; simpl in *.
    + injection Hi as <-. eauto.
    + eapply IH; eauto.
Qed.

Lemma tree_fit_predict_total_witness :
  exists root scores,
    Tree.estimator
      (Tree.Build 1 1 1 0
         (Some (Internal 0 (5 # 2) (Leaf (-36 # 12)) (Leaf (36 # 12)))))
      = Some root /\
    features_below (ncols example_train) root /\
    Tree.predict
      (Tree.Build 1 1 1 0
         (Some (Internal 0 (5 # 2) (Leaf (-36 # 12)) (Leaf (36 # 12)))))
      (Matrix 2 [[0; 7]; [9; 7]]) = Ok scores /\
    length scores = nrows (Matrix 2 [[0; 7]; [9; 7]]) /\
    forall i row,
      nth_error (rows (Matrix 2 [[0; 7]; [9; 7]])) i = Some row ->
      exists s,
        nth_error scores i = Some s /\ Tree.predict_single root row = Ok s.
Proof.
  apply (tree_fit_predict_total (Tree.Build 1 1 1 0 None) _ example_train
           (Matrix 2 [[0; 7]; [9; 7]])
           [9 # 2; 9 # 2; -9 # 2; -9 # 2] [1; 1; 1; 1]).
  - reflexivity.
  - repeat constructor; simpl; lia.
Defined.

Lemma split_rows_total (train : matrix) (f : nat) (t : Q) :
  let index := Tree.less_than (column train f) t in
  (nrows (Tree.select_rows train index)
   + nrows (Tree.select_rows train (invert index)) = nrows train)%nat.
Proof.
  intros index. destruct (split_mask_rows train f t) as (El & Er).
  fold index in El, Er. unfold nrows. rewrite El, Er. apply filter_length.
Qed.

Lemma construct_tree_fuel_size (self : Tree.t) (fuel : nat) :
  forall (train : matrix) (g h : list Q) (max_depth : Z) (node : TreeNode),
    (1 <= nrows train)%nat ->
    Tree.construct_tree_fuel fuel self train g h max_depth = Ok node ->
    (leaves node <= nrows train)%nat /\ (depth node < nrows train)%nat.
Proof.
  induction fuel as [|fuel IH]; intros train g h d node Hn E; [discriminate|].
  apply construct_tree_fuel_inv in E as (fuel' & Ef & Hcase).
  injection Ef as <-.
  destruct Hcase as [(_ & s & _ & ->)
                    |(_ & f & t & gain & l & r & Es & _ & El & Er & ->)].
  - simpl; lia.
  - destruct (find_best_split_groups _ _ _ _ _ _ _ Es)
      as (_ & _ & _ & Hl & Hr & _).
    pose proof (split_rows_total train f t) as Hsum. cbv zeta in Hsum.
    assert (1 <= nrows (Tree.select_rows train
                          (Tree.less_than (column train f) t)))%nat
      by (unfold nrows; destruct (rows (Tree.select_rows train _));
          [contradiction | simpl; lia]).
    assert (1 <= nrows (Tree.select_rows train
                          (invert (Tree.less_than (column train f) t))))%nat
      by (unfold nrows; destruct (rows (Tree.select_rows train (invert _)));
          [contradiction | simpl; lia]).
    apply IH in El as (L1 & L2); [|assumption].
    apply IH in Er as (R1 & R2); [|assumption].
    simpl. lia.
Qed.

(** X9: because every split leaves both groups non-empty, a tree built on at
    least one sample has no more leaves than samples and is less deep than
    there are samples, whatever [max_depth] is (a negative [max_depth]
    never stops the recursion by itself). *)
Theorem construct_tree_size (self : Tree.t) (train : matrix) (g h : list Q)
    (max_depth : Z) (node : TreeNode) :
  (1 <= nrows train)%nat ->
  Tree.construct_tree self train g h max_depth = Ok node ->
  (leaves node <= nrows train)%nat /\ (depth node < nrows train)%nat.
Proof. intros Hn; apply construct_tree_fuel_size; assumption. Qed.

Lemma construct_tree_size_witness :
  (leaves
     (Internal 0 (7 # 2)
        (Internal 0 (5 # 2)
           (Internal 0 (3 # 2) (Leaf (-1 # 2)) (Leaf (1 # 2)))
           (Leaf (-10 # 2)))
        (Leaf (10 # 2))) <= nrows example_train)%nat /\
  (depth
     (Internal 0 (7 # 2)
        (Internal 0 (5 # 2)
           (Internal 0 (3 # 2) (Leaf (-1 # 2)) (Leaf (1 # 2)))
           (Leaf (-10 # 2)))
        (Leaf (10 # 2))) < nrows example_train)%nat.
Proof.
  apply (construct_tree_size (Tree.Build (-1) 1 1 0 None) example_train
           [1; -1; 10; -10] [1; 1; 1; 1] (-1)).
  - cbv; lia.
  - reflexivity.
Defined.

Lemma construct_tree_fuel_leaf_group (self : Tree.t) (row : list Q)
    (fuel : nat) :
  forall (train : matrix) (g h : list Q) (max_depth : Z) (node : TreeNode),
    Tree.construct_tree_fuel fuel self train g h max_depth = Ok node ->
    (ncols train <= length row)%nat ->
    let '(group, gg, gh) := leaf_group node train g h row in
    exists score,
      Tree.predict_single node row = Ok score /\
      leaf_score gg gh (Tree.reg_lambda self) = Ok score /\
      (In row (rows train) -> In row (rows group)).
Proof.
  induction fuel as [|fuel IH]; intros train g h d node E Hrow;
    [discriminate|].
  apply construct_tree_fuel_inv in E as (fuel' & Ef & Hcase).
  injection Ef as <-.
  destruct Hcase as [(_ & s & Es & ->)
                    |(_ & f & t & gain & l & r & Es & _ & El & Er & ->)].
  - simpl. exists s; auto.
  - apply find_best_split_candidate in Es as (Hf & _).
    destruct (split_mask_rows train f t) as (Rl & Rr).
    simpl leaf_group. simpl Tree.predict_single.
    unfold getitem. rewrite (nth_error_nth' row 0) by lia. simpl bind.
    destruct (Qltb (nth f row 0) t) eqn:Hlt.
    + specialize (IH _ _ _ _ _ El Hrow).
      destruct (leaf_group l _ _ _ row) as [[group gg] gh].
      destruct IH as (score & Ep & Esc & Hin). exists score.
      repeat split; auto. intros Hr. apply Hin. rewrite Rl.
      apply filter_In; auto.
    + specialize (IH _ _ _ _ _ Er Hrow).
      destruct (leaf_group r _ _ _ row) as [[group gg] gh].
      destruct IH as (score & Ep & Esc & Hin). exists score.
      repeat split; auto. intros Hr. apply Hin. rewrite Rr.
      apply filter_In; split; [assumption|]. rewrite Hlt; reflexivity.
Qed.

(** X10: the score a built tree predicts for a sample is [leaf_score] of the
    gradients and hessians of the training samples that share the sample's
    leaf; and a training sample is a member of its own group. *)
Theorem predict_is_leaf_score_of_group (self : Tree.t) (train : matrix)
    (g h row : list Q) (max_depth : Z) (node : TreeNode) :
  Tree.construct_tree self train g h max_depth = Ok node ->
  (ncols train <= length row)%nat ->
  exists score,
    Tree.predict_single node row = Ok score /\
    leaf_score (snd (fst (leaf_group node train g h row)))
      (snd (leaf_group node train g h row)) (Tree.reg_lambda self)
      = Ok score /\
    (In row (rows train) ->
     In row (rows (fst (fst (leaf_group node train g h row))))).
Proof.
  intros E Hrow.
  pose proof (construct_tree_fuel_leaf_group self row _ _ _ _ _ _ E Hrow) as H.
  destruct (leaf_group node train g h row) as [[group gg] gh]. exact H.
Qed.

Lemma predict_is_leaf_score_of_group_witness :
  exists score,
    Tree.predict_single
      (Internal 0 (5 # 2) (Leaf (-36 # 12)) (Leaf (36 # 12))) [1] = Ok score /\
    leaf_score
      (snd (fst (leaf_group
                   (Internal 0 (5 # 2) (Leaf (-36 # 12)) (Leaf (36 # 12)))
                   example_train [9 # 2; 9 # 2; -9 # 2; -9 # 2] [1; 1; 1; 1]
                   [1])))
      (snd (leaf_group
              (Internal 0 (5 # 2) (Leaf (-36 # 12)) (Leaf (36 # 12)))
              example_train [9 # 2; 9 # 2; -9 # 2; -9 # 2] [1; 1; 1; 1] [1]))
      (Tree.reg_lambda (Tree.Build 1 1 1 0 None)) = Ok score /\
    (In [1] (rows example_train) ->
     In [1]
       (rows (fst (fst (leaf_group
                          (Internal 0 (5 # 2) (Leaf (-36 # 12))
                             (Leaf (36 # 12)))
                          example_train [9 # 2; 9 # 2; -9 # 2; -9 # 2]
                          [1; 1; 1; 1] [1]))))).
Proof.
  apply (predict_is_leaf_score_of_group (Tree.Build 1 1 1 0 None) example_train
           [9 # 2; 9 # 2; -9 # 2; -9 # 2] [1; 1; 1; 1] [1] 1).
  - reflexivity.
  - cbv; lia.
Defined.

(** ** Fitting and refitting an ensemble *)

(** The loop of [fit] keeps the configuration it started from. *)
Lemma fit_loop_config (self0 : GBDT.t) (train : matrix) (target : list Q)
    (idx : list nat) :
  forall (es : list Tree.t) (score : list Q) (st : GBDT.t * list Q),
    for_loop idx (GBDT.fit_round train target)
      (GBDT.set_estimators self0 es, score) = Ok st ->
    exists es', fst st = GBDT.set_estimators self0 es'.
Proof.
  induction idx as [|i idx IH]; intros es score st; simpl.
  - intros E; injection E as <-. exists es; reflexivity.
  - intros E. apply bind_Ok in E as ([self1 score1] & E1 & E).
    unfold GBDT.fit_round in E1.
    repeat match type of E1 with
           | bind _ _ = Ok _ => apply bind_Ok in E1 as (? & _ & E1)
           end.
    injection E1 as <- <-.
    match type of E with
    | for_loop _ _ (GBDT.set_estimators _ ?es', ?sc) = _ =>
        apply (IH es' sc st); exact E
    end.
Qed.

Lemma fit_start_idempotent (self : GBDT.t) (es : list Tree.t) (m m' : Q) :
  fit_start (GBDT.set_estimators (fit_start self m) es) m' = fit_start self m'.
Proof.
  unfold fit_start, GBDT.set_estimators; simpl.
  destruct (GBDT.loss self) as [name|l]; simpl; [|reflexivity].
  destruct (String.eqb name "mse") eqn:E; simpl; [reflexivity|].
  rewrite E. reflexivity.
Qed.

(** X11: [fit] starts from scratch: fitting an ensemble that was fitted
    before, on any data, gives what fitting the unfitted ensemble on that data
    gives, the earlier trees and start score being discarded. *)
Theorem fit_forgets_previous_fit (self fitted : GBDT.t) (train : matrix)
    (target : list Q) :
  GBDT.fit self train target = Ok fitted ->
  forall (train' : matrix) (target' : list Q),
    GBDT.fit fitted train' target' = GBDT.fit self train' target'.
Proof.
  intros E train' target'. rewrite fit_unfold in E.
  apply bind_Ok in E as (m & _ & E). apply bind_Ok in E as (st & Eloop & E).
  injection E as <-.
  apply fit_loop_config in Eloop as (es & ->).
  rewrite !fit_unfold. simpl GBDT.n_estimators.
  destruct (mean target') as [m'|e]; simpl bind; [|reflexivity].
  rewrite fit_start_idempotent. reflexivity.
Qed.

Lemma fit_forgets_previous_fit_witness :
  GBDT.fit example_fitted (Matrix 1 [[1]; [3]]) [0; 4]
  = GBDT.fit example_gbdt (Matrix 1 [[1]; [3]]) [0; 4].
Proof.
  apply (fit_forgets_previous_fit example_gbdt example_fitted example_train
           example_target).
  reflexivity.
Defined.

(** X12: the name ['mse'] and an instance of the class [mse] configure the
    same ensemble: [fit] returns the same result for both. *)
Theorem fit_mse_name_is_instance (self : GBDT.t) (train : matrix)
    (target : list Q) :
  GBDT.fit (GBDT.set_loss self (GBDT.LossName "mse")) train target
  = GBDT.fit (GBDT.set_loss self (GBDT.LossObj Loss.mse)) train target.
Proof. rewrite !fit_unfold. reflexivity. Qed.

(** The loop of [fit], for a loss that is an instance, is the boosting
    rounds: the same trees, and the same exception if one is raised. *)
Lemma fit_loop_equation (self0 : GBDT.t) (l : Loss.t) (train : matrix)
    (target : list Q) (k : nat) :
  GBDT.loss self0 = GBDT.LossObj l ->
  forall (a : nat) (es : list Tree.t) (score : list Q),
    (st <- for_loop (seq a k) (GBDT.fit_round train target)
             (GBDT.set_estimators self0 es, score) ;;
     Ok (fst st))
    = (roots <- boosting_rounds (tree_of self0 None)
                  (GBDT.learning_rate self0) l train target k score ;;
       Ok (GBDT.set_estimators self0
             (es ++ map (fun root => tree_of self0 (Some root)) roots))).
Proof.
  intros Hl. induction k as [|k IH]; intros a es score.
  - simpl. rewrite app_nil_r. reflexivity.
  - simpl seq. simpl for_loop. simpl boosting_rounds.
    set (loop := for_loop (seq (S a) k) (GBDT.fit_round train target)).
    unfold GBDT.fit_round. unfold GBDT.loss_methods. simpl GBDT.loss.
    rewrite Hl. simpl bind.
    destruct (Loss.g l target score) as [gv|e]; simpl bind; [|reflexivity].
    destruct (Loss.h l target score) as [hv|e]; simpl bind; [|reflexivity].
    unfold Tree.fit. simpl Tree.max_depth.
    change (Tree.Build (GBDT.max_depth self0) (GBDT.min_sample_split self0)
              (GBDT.reg_lambda self0) (GBDT.gamma self0) None)
      with (tree_of self0 None).
    destruct (Tree.construct_tree (tree_of self0 None) train gv hv
                (GBDT.max_depth self0)) as [root|e]; simpl bind;
      [|reflexivity].
    rewrite (predict_fitted _ root) by reflexivity.
    destruct (mapM (Tree.predict_single root) (rows train)) as [p|e];
      simpl bind; [|reflexivity].
    destruct (iadd score (scale (GBDT.learning_rate self0) p)) as [score'|e];
      simpl bind; [|reflexivity].
    specialize (IH (S a) (es ++ [tree_of self0 (Some root)]) score').
    change (GBDT.set_estimators (GBDT.set_estimators self0 es)
              (es ++ [Tree.Build (GBDT.max_depth self0)
                        (GBDT.min_sample_split self0) (GBDT.reg_lambda self0)
                        (GBDT.gamma self0) (Some root)]))
      with (GBDT.set_estimators self0 (es ++ [tree_of self0 (Some root)])).
    subst loop. rewrite IH.
    destruct (boosting_rounds _ _ l train target k score') as [roots|e];
      simpl bind; [|reflexivity].
    rewrite <- app_assoc. reflexivity.
Qed.

Lemma fit_equation (self : GBDT.t) (l : Loss.t) (train : matrix)
    (target : list Q) :
  (GBDT.loss self = GBDT.LossName "mse" /\ l = Loss.mse) \/
  GBDT.loss self = GBDT.LossObj l ->
  GBDT.fit self train target
  = (m <- mean target ;;
     roots <- boosting_rounds (tree_of self None) (GBDT.learning_rate self) l
                train target (Z.to_nat (GBDT.n_estimators self))
                (repeat m (nrows train)) ;;
     Ok (fitted_with self l m roots)).
Proof.
  intros Hl. rewrite fit_unfold.
  destruct (mean target) as [m|e]; simpl bind; [|reflexivity].
  unfold range. rewrite Nat.sub_0_r.
  assert (Els : GBDT.loss (fit_start self m) = GBDT.LossObj l).
  { unfold fit_start; simpl.
    destruct Hl as [(E1 & E2)|E1]; rewrite E1; [rewrite E2|]; reflexivity. }
  rewrite (fit_loop_equation (fit_start self m) l train target _ Els).
  change (tree_of (fit_start self m) None) with (tree_of self None).
  change (GBDT.learning_rate (fit_start self m))
    with (GBDT.learning_rate self).
  destruct (boosting_rounds _ _ l train target _ _) as [roots|e];
    simpl bind; [|reflexivity].
  unfold GBDT.set_estimators, fitted_with. rewrite Els. reflexivity.
Qed.

(** What [predict] computes on an ensemble as [fit] returns it. *)
Lemma predict_fitted_with (self : GBDT.t) (l : Loss.t) (m : Q)
    (roots : list TreeNode) (test : matrix) :
  length roots = Z.to_nat (GBDT.n_estimators self) ->
  GBDT.predict (fitted_with self l m roots) test
  = (scores <-
       mapM (ensemble_score (GBDT.learning_rate self) roots m) (rows test) ;;
     Loss.link l scores).
Proof.
  intros Hlen.
  unfold GBDT.predict, GBDT.get_score_start, GBDT.loss_methods, fitted_with.
  simpl. unfold range. rewrite Nat.sub_0_r, <- Hlen.
  match goal with
  | |- context [for_loop _ (GBDT.predict_round ?s test) _] =>
      rewrite (predict_loop_accumulate s test roots [])
        by (simpl; f_equal; apply map_ext; reflexivity)
  end.
  simpl GBDT.learning_rate.
  rewrite accumulate_rows by (rewrite ones_times_repeat; apply repeat_length).
  rewrite ones_times_repeat. unfold nrows.
  rewrite (mapM_combine_repeat (ensemble_score (GBDT.learning_rate self) roots)).
  reflexivity.
Qed.

(** ** Squared error: well-shaped data never raise *)

Lemma mean_Ok (target : list Q) :
  target <> [] ->
  exists m,
    mean target = Ok m /\
    m == sum target / inject_Z (Z.of_nat (length target)).
Proof.
  intros Hne. unfold mean. rewrite div_Ok; [eexists; split; reflexivity|].
  destruct target as [|y target]; [contradiction|].
  unfold Qeq; simpl. lia.
Qed.

Lemma mse_g_Ok (target score : list Q) :
  length score = length target ->
  Loss.g Loss.mse target score
  = Ok (map (fun p => fst p - snd p) (combine score target)).
Proof.
  intros E. simpl. unfold broadcast. rewrite E, Nat.eqb_refl. reflexivity.
Qed.

Lemma ones_nonneg {A : Type} (l : list A) : nonneg (map (fun _ => 1) l).
Proof.
  unfold nonneg. induction l; simpl; constructor; [discriminate | assumption].
Qed.

Lemma boosting_rounds_S (cfg : Tree.t) (learning_rate : Q) (l : Loss.t)
    (train : matrix) (target : list Q) (n : nat) (score : list Q) :
  boosting_rounds cfg learning_rate l train target (S n) score
  = (gv <- Loss.g l target score ;;
     hv <- Loss.h l target score ;;
     root <- Tree.construct_tree cfg train gv hv (Tree.max_depth cfg) ;;
     p <- mapM (Tree.predict_single root) (rows train) ;;
     score' <- iadd score (scale learning_rate p) ;;
     roots <- boosting_rounds cfg learning_rate l train target n score' ;;
     Ok (root :: roots)).
Proof. reflexivity. Qed.

Lemma boosting_rounds_mse_total (cfg : Tree.t) (learning_rate : Q)
    (train : matrix) (target : list Q) (k : nat) :
  wf_matrix train -> length target = nrows train ->
  0 < Tree.reg_lambda cfg -> 0 <= Tree.gamma cfg ->
  forall score,
    length score = nrows train ->
    exists roots,
      boosting_rounds cfg learning_rate Loss.mse train target k score
        = Ok roots /\
      Forall (features_below (ncols train)) roots.
Proof.
  intros Hwf Ht Hl Hgam. induction k as [|k IH]; intros score Hs.
  - exists []; simpl; auto.
  - rewrite boosting_rounds_S, mse_g_Ok by congruence.
    change (Loss.h Loss.mse target score) with (Ok (map (fun _ => 1) score)).
    simpl bind.
    destruct (construct_tree_total cfg train
                (map (fun p => fst p - snd p) (combine score target))
                (map (fun _ => 1) score) (Tree.max_depth cfg))
      as (root & Er); auto.
    { rewrite length_map, length_combine. lia. }
    { rewrite length_map. assumption. }
    { apply ones_nonneg. }
    rewrite Er. simpl bind.
    pose proof (construct_tree_fuel_features _ _ _ _ _ _ _ Er) as Hf.
    destruct (mapM_total (Tree.predict_single root) (rows train))
      as (p & Ep & Hp).
    { intros row Hrow. apply (predict_single_total (ncols train)); auto.
      unfold wf_matrix in Hwf. rewrite Forall_forall in Hwf.
      rewrite (Hwf row Hrow). lia. }
    rewrite Ep. simpl bind.
    rewrite iadd_Ok by (unfold scale; rewrite length_map; unfold nrows in *;
                        congruence).
    simpl bind.
    destruct (IH (map (fun p0 => fst p0 + snd p0)
                    (combine score (scale learning_rate p))))
      as (roots & -> & Hroots).
    { rewrite length_map, length_combine. unfold scale. rewrite length_map.
      unfold nrows in *. lia. }
    simpl bind. exists (root :: roots). split; [reflexivity|].
    constructor; assumption.
Qed.

Lemma ensemble_score_total (learning_rate m : Q) (n : nat)
    (roots : list TreeNode) (row : list Q) :
  Forall (features_below n) roots -> (n <= length row)%nat ->
  exists s, ensemble_score learning_rate roots m row = Ok s.
Proof.
  intros Hroots Hrow. unfold ensemble_score.
  destruct (mapM_total (fun root => Tree.predict_single root row) roots)
    as (ps & -> & _); [|simpl; eauto].
  rewrite Forall_forall in Hroots. intros root Hroot.
  apply (predict_single_total n); auto.
Qed.

(** X13: with the squared-error loss, a rectangular training matrix, as many
    targets as samples and at least one, [reg_lambda > 0] and [gamma >= 0],
    [fit] never raises; and the fitted ensemble predicts any samples that have
    at least as many features as the training samples, one prediction per
    row. *)
Theorem mse_fit_predict_total (self : GBDT.t) (train : matrix)
    (target : list Q) :
  GBDT.loss self = GBDT.LossName "mse" \/
  GBDT.loss self = GBDT.LossObj Loss.mse ->
  wf_matrix train -> target <> [] -> length target = nrows train ->
  0 < GBDT.reg_lambda self -> 0 <= GBDT.gamma self ->
  exists fitted,
    GBDT.fit self train target = Ok fitted /\
    forall test,
      Forall (fun row => (ncols train <= length row)%nat) (rows test) ->
      exists out,
        GBDT.predict fitted test = Ok out /\ length out = nrows test.
Proof.
  intros Hloss Hwf Hne Ht Hl Hgam.
  rewrite (fit_equation self Loss.mse) by tauto.
  destruct (mean_Ok target Hne) as (m & -> & _). simpl bind.
  destruct (boosting_rounds_mse_total (tree_of self None)
              (GBDT.learning_rate self) train target
              (Z.to_nat (GBDT.n_estimators self)) Hwf Ht Hl Hgam
              (repeat m (nrows train)) (repeat_length _ _))
    as (roots & Er & Hroots).
  rewrite Er. simpl bind. eexists; split; [reflexivity|].
  intros test Htest.
  rewrite predict_fitted_with
    by (apply (boosting_rounds_length _ _ _ _ _ _ _ _ Er)).
  destruct (mapM_total (ensemble_score (GBDT.learning_rate self) roots m)
              (rows test)) as (scores & -> & Hlen).
  { rewrite Forall_forall in Htest. intros row Hrow.
    apply (ensemble_score_total _ _ (ncols train)); auto. }
  simpl. exists scores; auto.
Qed.

Lemma mse_fit_predict_total_witness :
  exists fitted,
    GBDT.fit example_gbdt example_train example_target = Ok fitted /\
    forall test,
      Forall (fun row => (ncols example_train <= length row)%nat)
        (rows test) ->
      exists out,
        GBDT.predict fitted test = Ok out /\ length out = nrows test.
Proof.
  apply (mse_fit_predict_total example_gbdt example_train example_target).
  - left; reflexivity.
  - repeat constructor.
  - discriminate.
  - reflexivity.
  - reflexivity.
  - discriminate.
Defined.

(** ** Squared error: constant targets *)










(** ** The logistic loss *)




(** ** The exceptions of tree construction *)

Lemma div_error (a b : Q) (e : error) :
  div a b = Err e -> e = ZeroDivisionError.
Proof.
  unfold div. destruct (Qeq_bool b 0); [|discriminate].
  intros E; injection E as <-; reflexivity.
Qed.

Lemma bind_Err {A B : Type} (r : result A) (k : A -> result B) (e : error) :
  bind r k = Err e -> r = Err e \/ exists a, r = Ok a /\ k a = Err e.
Proof.
  destruct r as [a|e']; simpl; intros E; [eauto|].
  injection E as ->. left; reflexivity.
Qed.

Lemma calculate_gain_error (original_loss : Q) (feature g h : list Q)
    (threshold reg_lambda : Q) (e : error) :
  length g = length feature -> length h = length feature ->
  calculate_gain original_loss feature g h threshold reg_lambda = Err e ->
  e = ZeroDivisionError.
Proof.
  intros Hg Hh E.
  destruct (gain_loop_sums threshold feature [] [] [] g h 0 0 0 0
              eq_refl eq_refl Hg Hh) as (lg & lh & rg & rh & El & _).
  unfold calculate_gain, range in E. rewrite Nat.sub_0_r in E.
  simpl app in El. simpl length in El. rewrite El in E. simpl bind in E.
  apply bind_Err in E as [E|(ll & _ & E)]; [apply div_error in E; auto|].
  apply bind_Err in E as [E|(rl & _ & E)]; [apply div_error in E; auto|].
  discriminate.
Qed.

Lemma scan_error (gain : Q -> result Q) (e0 : error) (cands : list Q) :
  (forall c e, gain c = Err e -> e = e0) ->
  forall st e, scan gain cands st = Err e -> e = e0.
Proof.
  intros Hg. induction cands as [|c cands IH]; intros st e; simpl;
    [discriminate|].
  intros E. apply bind_Err in E as [E|(gc & _ & E)]; eauto.
Qed.

Lemma find_threshold_error (g h train : list Q) (reg_lambda : Q) (e : error) :
  length g = length train -> length h = length train ->
  find_threshold g h train reg_lambda = Err e -> e = ZeroDivisionError.
Proof.
  intros Hg Hh. rewrite find_threshold_scan. intros E.
  apply bind_Err in E as [E|(loss & _ & E)]; [apply div_error in E; auto|].
  apply scan_error with (e0 := ZeroDivisionError) in E; auto.
  intros c e'. apply calculate_gain_error; assumption.
Qed.

Lemma for_loop_error {S : Type} (body : nat -> S -> result S) (e0 : error)
    (idx : list nat) :
  (forall i s e, body i s = Err e -> e = e0) ->
  forall s e, for_loop idx body s = Err e -> e = e0.
Proof.
  intros Hb. induction idx as [|i idx IH]; intros s e; simpl; [discriminate|].
  intros E. apply bind_Err in E as [E|(s' & _ & E)]; eauto.
Qed.

Lemma find_best_split_error (train : matrix) (g h : list Q) (reg_lambda : Q)
    (e : error) :
  length g = nrows train -> length h = nrows train ->
  find_best_split train g h reg_lambda = Err e -> e = ZeroDivisionError.
Proof.
  intros Hg Hh. unfold find_best_split. apply for_loop_error.
  intros i [[f th] best] e' E. unfold split_body in E.
  apply bind_Err in E as [E|([thi gi] & _ & E)].
  - apply find_threshold_error in E; auto; rewrite column_length; assumption.
  - destruct (Qltb best gi); discriminate.
Qed.

Lemma construct_tree_fuel_error (self : Tree.t) (fuel : nat) :
  forall (train : matrix) (g h : list Q) (max_depth : Z) (e : error),
    (nrows train < fuel)%nat ->
    length g = nrows train -> length h = nrows train ->
    0 <= Tree.gamma self ->
    Tree.construct_tree_fuel fuel self train g h max_depth = Err e ->
    e = ZeroDivisionError.
Proof.
  induction fuel as [|fuel IH]; intros train g h d e Hf Hg Hh Hgam; [lia|].
  rewrite construct_tree_fuel_S.
  assert (Hleaf : Tree.make_leaf self g h = Err e -> e = ZeroDivisionError).
  { unfold Tree.make_leaf. intros E.
    apply bind_Err in E as [E|(s & _ & E)];
      [apply div_error in E; auto | discriminate]. }
  destruct ((d =? 0)%Z || (Z.of_nat (nrows train) <? Tree.min_sample_split self)%Z);
    [assumption|].
  intros E. apply bind_Err in E as [E|([[f th] gain] & Ef & E)];
    [apply find_best_split_error in E; auto|].
  destruct (Qle_bool gain (Tree.gamma self)) eqn:Hgain; [auto|].
  assert (Hpos : ~ gain <= Tree.gamma self).
  { intros Hle; apply Qle_bool_iff in Hle; congruence. }
  pose proof (find_best_split_invariant _ _ _ _ _ Ef) as (_ & Hcase).
  destruct Hcase as [(_ & _ & ->)|(Hlt & Eth & _)]; [contradiction|].
  destruct th as [t|].
  2:{ apply find_threshold_result in Eth as (loss & _ & _ & Hc).
      destruct Hc as [(_ & E0)|(t & Et & _)]; [|discriminate].
      rewrite E0 in Hpos; contradiction. }
  destruct (find_best_split_groups _ _ _ _ _ _ _ Ef)
    as (_ & _ & _ & _ & _ & Hsl & Hsr).
  unfold Tree.get_column in E. apply Nat.ltb_lt in Hlt. rewrite Hlt in E.
  simpl bind in E.
  set (index := Tree.less_than (column train f) t) in *.
  assert (Hi : length index = nrows train).
  { unfold index. rewrite less_than_length. apply column_length. }
  rewrite !mask_select_Ok in E by (rewrite ?invert_length; congruence).
  simpl bind in E.
  apply bind_Err in E as [E|(l & _ & E)].
  { apply IH in E; auto; try lia; apply compress_length_eq; assumption. }
  apply bind_Err in E as [E|(r & _ & E)]; [|discriminate].
  apply IH in E; auto; try lia; apply compress_length_eq; assumption.
Qed.

(** X16: with one gradient and one hessian per sample and [gamma >= 0], the
    only exception [construct_tree] can raise is [ZeroDivisionError]: the
    feature and threshold of a split it makes are always usable, and the masks
    always fit. *)
Theorem construct_tree_only_zero_division (self : Tree.t) (train : matrix)
    (g h : list Q) (max_depth : Z) :
  length g = nrows train -> length h = nrows train ->
  0 <= Tree.gamma self ->
  (exists node, Tree.construct_tree self train g h max_depth = Ok node) \/
  Tree.construct_tree self train g h max_depth = Err ZeroDivisionError.
Proof.
  intros Hg Hh Hgam.
  destruct (Tree.construct_tree self train g h max_depth) as [node|e] eqn:E;
    [left; eauto | right].
  apply (construct_tree_fuel_error self (S (nrows train))) in E; auto.
  rewrite E; reflexivity.
Qed.

Lemma construct_tree_only_zero_division_witness :
  (exists node,
     Tree.construct_tree (Tree.Build 3 1 0 0 None) (Matrix 1 [[1]; [2]])
       [1; -1] [0; 0] 3 = Ok node) \/
  Tree.construct_tree (Tree.Build 3 1 0 0 None) (Matrix 1 [[1]; [2]])
    [1; -1] [0; 0] 3 = Err ZeroDivisionError.
Proof.
  apply (construct_tree_only_zero_division (Tree.Build 3 1 0 0 None)
           (Matrix 1 [[1]; [2]]) [1; -1] [0; 0] 3);
    try reflexivity; discriminate.
Defined.

(** X17: with [gamma < 0], a node that is not stopped early and whose split
    search finds no threshold is split all the same: [construct_tree] raises
    [TypeError] on comparing the feature values with [None], or [IndexError]
    when the matrix has no column. *)
Theorem construct_tree_negative_gamma (self : Tree.t) (train : matrix)
    (g h : list Q) (max_depth : Z) (feature : nat) (gain : Q) :
  ~ stops_early self train max_depth ->
  find_best_split train g h (Tree.reg_lambda self)
    = Ok (feature, None, gain) ->
  Tree.gamma self < 0 ->
  Tree.construct_tree self train g h max_depth
  = Err (if Nat.ltb 0 (ncols train) then TypeError else IndexError).
Proof.
  intros Hns Ef Hgam. rewrite construct_tree_eq.
  destruct ((max_depth =? 0)%Z
            || (Z.of_nat (nrows train) <? Tree.min_sample_split self)%Z)
    eqn:Hs; [apply stops_early_iff in Hs; contradiction|].
  rewrite Ef. simpl bind.
  pose proof (find_best_split_invariant _ _ _ _ _ Ef) as (_ & Hcase).
  assert (Hz : feature = 0%nat /\ gain = 0).
  { destruct Hcase as [(-> & _ & ->)|(_ & Eth & Hpos & _)]; [auto|].
    apply find_threshold_result in Eth as (loss & _ & _ & Hc).
    destruct Hc as [(_ & E0)|(t & Et & _)]; [|discriminate].
    rewrite E0 in Hpos. discriminate. }
  destruct Hz as (-> & ->).
  replace (Qle_bool 0 (Tree.gamma self)) with false.
  2:{ symmetry. destruct (Qle_bool 0 (Tree.gamma self)) eqn:E; [|reflexivity].
      apply Qle_bool_iff in E. lra. }
  unfold Tree.get_column. destruct (Nat.ltb 0 (ncols train)); reflexivity.
Qed.

Lemma construct_tree_negative_gamma_witness :
  Tree.construct_tree (Tree.Build 3 1 1 (-1) None) example_train [1; 1; 1; 1]
    [1; 1; 1; 1] 3
  = Err (if Nat.ltb 0 (ncols example_train) then TypeError else IndexError).
Proof.
  apply (construct_tree_negative_gamma (Tree.Build 3 1 1 (-1) None)
           example_train [1; 1; 1; 1] [1; 1; 1; 1] 3 0 0).
  - intros [H|H]; [discriminate | revert H; cbv; discriminate].
  - reflexivity.
  - reflexivity.
Defined.
